(** * PyRate: the correction workflow and the per-pixel MST reducer

    A shallow embedding of [pyrate/correct.py] (the "correct" workflow:
    step registry, validation, housekeeping, step loop, phase-closure
    filter, metadata dictionary) and of the minimum-spanning-tree reducer
    exercised by [pyrate/tests/mst_tests.py].

    Python dictionaries are stdpp [gmap]s, epoch sets are [gset]s, raised
    exceptions are a [result] type, and the calls made to the external
    collaborators are recorded in a trace. *)

From Stdlib Require Import ZArith QArith.
From stdpp Require Import gmap strings list fin_maps sets.

(** ** Per-pixel minimum spanning tree reducer *)

Module Mst.

(** An acquisition date, as a day ordinal. *)
Definition EpochDate := nat.

(** An edge of the epoch network: the (first, second) pair of an
    interferogram. *)
Definition Edge : Type := EpochDate * EpochDate.

(** A phase sample: the reducer only ever asks whether a sample is NaN,
    so the finite samples carry an integer payload. *)
Inductive phase :=
| Finite (v : Z)
| NaN.

Definition isnan (p : phase) : bool :=
  match p with
  | NaN => true
  | Finite _ => false
  end.

(** [MockIfg] / [Ifg] as the tests use it: an epoch pair, the raster shape
    and the 2-D phase array. *)
Record Ifg := {
  first : EpochDate;
  second : EpochDate;
  nrows : nat;
  ncols : nat;
  phase_data : list (list phase)
}.

(** [i.phase_data[y, x]]; a read outside the stored array counts as a
    missing sample. *)
Definition pixel (i : Ifg) (y x : nat) : phase :=
  default NaN (phase_data i !! y ≫= (.!! x)).

Definition edge_of (i : Ifg) : Edge := (first i, second i).

(** The interferograms with a non-missing value at pixel (y, x), in stack
    order. *)
Definition coherent (ifgs : list Ifg) (y x : nat) : list Ifg :=
  filter (λ i, isnan (pixel i y x) = false) ifgs.

(** The epochs referenced by a list of edges. *)
Definition epochs_of (es : list Edge) : gset EpochDate :=
  list_to_set (es.*1 ++ es.*2).

(** Component labels: every epoch carries the label of its component. *)
Definition labelling := EpochDate → EpochDate.

(** Merge the component of [b] into the component of [a]. *)
Definition union (lbl : labelling) (a b : EpochDate) : labelling :=
  λ x, if decide (lbl x = lbl b) then lbl a else lbl x.

(** Modelled from the spec: [pyrate/mst.py] is not among the sources (only
    its tests are).  Section 4.4 of the specification describes the
    reduction: the graph has the epochs of the given interferograms as nodes
    and their (first, second) pairs as edges, weights are uniform, the
    interferograms are processed in stack order and the earliest-listed
    edge wins, and a disconnected graph yields a maximal forest.  That is
    the greedy scan below: an edge is kept exactly when its two epochs are
    not yet in one component. *)
Fixpoint spanning_forest_from (lbl : labelling) (es : list Edge)
  : list Edge * labelling :=
  match es with
  | [] => ([], lbl)
  | (a, b) :: rest =>
      if decide (lbl a = lbl b) then spanning_forest_from lbl rest
      else
        let '(t, lbl') := spanning_forest_from (union lbl a b) rest in
        ((a, b) :: t, lbl')
  end.

Definition spanning_forest (es : list Edge) : list Edge :=
  (spanning_forest_from id es).1.

Definition final_labels (es : list Edge) : labelling :=
  (spanning_forest_from id es).2.

(** Modelled from the spec: [default_mst] of the absent [pyrate/mst.py];
    section 4.4: the same algorithm, run once on the whole interferogram
    network, ignoring the phase data. *)
Definition default_mst (ifgs : list Ifg) : list Edge :=
  spanning_forest (edge_of <$> ifgs).

(** The value stored in one cell of the MST matrix: [None] is the
    missing-value marker (NaN), [Some t] a tree given by its edges. *)
Definition MSTResult := option (list Edge).

(** Modelled from the spec: the per-pixel step of [mst_matrix] of the absent
    [pyrate/mst.py]; section 4.4: the graph is built from the interferograms
    that are finite at the pixel; with no coherent epoch, or a single one,
    the cell holds the missing marker.  A pixel with one coherent
    interferogram joining two epochs has two coherent epochs and gets the
    one-edge tree, which is what
    [MSTTests.test_partial_nan_pixel_stack] asserts ([len(res[0,0]) == 1]). *)
Definition mst_pixel (ifgs : list Ifg) (y x : nat) : MSTResult :=
  let es := edge_of <$> coherent ifgs y x in
  if decide (size (epochs_of es) ≤ 1) then None
  else Some (spanning_forest es).

(** Modelled from the spec: [mst_matrix] of the absent [pyrate/mst.py]; one
    cell per pixel of the raster shape, which is taken from the first
    interferogram of the stack as the test does
    ([shape = (mock_ifgs[0].nrows, mock_ifgs[0].ncols)]).  The epoch list
    argument is part of the signature; the nodes of each pixel's graph are
    the epochs of its coherent interferograms. *)
Definition mst_matrix (ifgs : list Ifg) (epochs : list EpochDate)
  : list (list MSTResult) :=
  match ifgs with
  | [] => []
  | i0 :: _ =>
      (λ y, (λ x, mst_pixel ifgs y x) <$> seq 0 (ncols i0)) <$> seq 0 (nrows i0)
  end.

(** [res[y, x]] *)
Definition cell (res : list (list MSTResult)) (y x : nat) : option MSTResult :=
  res !! y ≫= (.!! x).

(** Connectivity of epochs through a list of edges, starting from the
    components given by a labelling. *)
Inductive conn (lbl : labelling) (es : list Edge) : relation EpochDate :=
| conn_lbl x y : lbl x = lbl y → conn lbl es x y
| conn_edge a b : (a, b) ∈ es → conn lbl es a b
| conn_sym x y : conn lbl es x y → conn lbl es y x
| conn_trans x y z : conn lbl es x y → conn lbl es y z → conn lbl es x z.

(** Two epochs are linked when a chain of edges joins them. *)
Definition linked (es : list Edge) : relation EpochDate := conn id es.

(** The network is connected when any two of its epochs are linked. *)
Definition graph_connected (es : list Edge) : Prop :=
  ∀ a b, a ∈ epochs_of es → b ∈ epochs_of es → linked es a b.

(** A stack for the examples: a 1 x 1 raster per interferogram. *)
Definition mock (a b : EpochDate) (p : phase) : Ifg :=
  {| first := a; second := b; nrows := 1; ncols := 1; phase_data := [[p]] |}.


(** The coverage property of [default_mst] in its strongest reading:
    [m - 1] edges for [m] epochs, only input edges, every input epoch a
    node of the tree. *)
Definition default_mst_claim (ifgs : list Ifg) : Prop :=
  let es := edge_of <$> ifgs in
  let t := default_mst ifgs in
  length t = size (epochs_of es) - 1 ∧
  (∀ e, e ∈ t → e ∈ es) ∧
  (∀ a, a ∈ epochs_of es → a ∈ epochs_of t).

End Mst.

(** ** The correction workflow ([pyrate/correct.py]) *)

Module Correct.

(** *** Data *)

(** [pyrate.configuration.MultiplePaths]: the paths of one interferogram. *)
Record MultiplePaths := {
  converted_path : string;
  sampled_path : string;
  tmp_sampled_path : string
}.

(** The attributes [_create_ifg_dict] reads from an interferogram opened by
    [shared._prep_ifg]. *)
Module Ifg.
Record t := {
  nan_fraction : Q;
  first : nat;
  second : nat;
  time_span : Q;
  nrows : nat;
  ncols : nat;
  meta_data : gmap string string
}.
End Ifg.

(** [pyrate.core.shared.PrereadIfg], with the keywords of its constructor
    call in [_create_ifg_dict]. *)
Record PrereadIfg := {
  path : string;
  tmp_path : string;
  nan_fraction : Q;
  first : nat;
  second : nat;
  time_span : Q;
  nrows : nat;
  ncols : nat;
  metadata : gmap string string
}.

(** The first component of [algorithm.get_epochs]. *)
Record EpochList := {
  dates : list nat;
  repeat : list nat;
  spans : list Q
}.

#[export] Instance Q_eq_dec : EqDecision Q.
Proof. solve_decision. Defined.

#[export] Instance PrereadIfg_eq_dec : EqDecision PrereadIfg.
Proof. solve_decision. Defined.

#[export] Instance EpochList_eq_dec : EqDecision EpochList.
Proof. solve_decision. Defined.

(** The values [ifgs_dict] holds: a [PrereadIfg] under a working path, and
    for a while the header fields and the epoch list. *)
Inductive DictVal :=
| Preread (p : PrereadIfg)
| Epochs (el : EpochList)
| Gt (gt : list Q)
| Md (md : gmap string string)
| Wkt (wkt : string).

#[export] Instance DictVal_eq_dec : EqDecision DictVal.
Proof. solve_decision. Defined.

(** [ifgs_dict], a Python dict with string keys. *)
Abbreviation dict := (gmap string DictVal).

Definition Tiles := list (nat * nat * nat * nat).

(** The keys of [config.__dict__] this module reads or writes; every other
    key belongs to the collaborators and lives in their environment. *)
Record Params := {
  correct : list string;
  PHASE_CLOSURE : bool;
  INTERFEROGRAM_FILES : list MultiplePaths;
  TMPDIR : string;
  rows : Z;
  cols : Z;
  TILES : option Tiles;
  PREREAD_IFGS : option dict;
  REFX_FOUND : option Z;
  REFY_FOUND : option Z
}.

Definition with_INTERFEROGRAM_FILES (v : list MultiplePaths) (p : Params) : Params :=
  {| correct := correct p; PHASE_CLOSURE := PHASE_CLOSURE p;
     INTERFEROGRAM_FILES := v; TMPDIR := TMPDIR p; rows := rows p; cols := cols p;
     TILES := TILES p; PREREAD_IFGS := PREREAD_IFGS p;
     REFX_FOUND := REFX_FOUND p; REFY_FOUND := REFY_FOUND p |}.

Definition with_TILES (v : Tiles) (p : Params) : Params :=
  {| correct := correct p; PHASE_CLOSURE := PHASE_CLOSURE p;
     INTERFEROGRAM_FILES := INTERFEROGRAM_FILES p; TMPDIR := TMPDIR p;
     rows := rows p; cols := cols p;
     TILES := Some v; PREREAD_IFGS := PREREAD_IFGS p;
     REFX_FOUND := REFX_FOUND p; REFY_FOUND := REFY_FOUND p |}.

Definition with_PREREAD_IFGS (v : dict) (p : Params) : Params :=
  {| correct := correct p; PHASE_CLOSURE := PHASE_CLOSURE p;
     INTERFEROGRAM_FILES := INTERFEROGRAM_FILES p; TMPDIR := TMPDIR p;
     rows := rows p; cols := cols p;
     TILES := TILES p; PREREAD_IFGS := Some v;
     REFX_FOUND := REFX_FOUND p; REFY_FOUND := REFY_FOUND p |}.

Definition with_REF_FOUND (xy : Z * Z) (p : Params) : Params :=
  {| correct := correct p; PHASE_CLOSURE := PHASE_CLOSURE p;
     INTERFEROGRAM_FILES := INTERFEROGRAM_FILES p; TMPDIR := TMPDIR p;
     rows := rows p; cols := cols p;
     TILES := TILES p; PREREAD_IFGS := PREREAD_IFGS p;
     REFX_FOUND := Some xy.1; REFY_FOUND := Some xy.2 |}.

(** *** Exceptions *)

Inductive exn :=
| ConfigException (msg : string)
| SystemExit (msg : string)
| KeyError (key : string)
| IndexError
| TypeError
| DuplicateKey
| CollaboratorError (what : string).

Inductive result (A : Type) :=
| Ok (a : A)
| Raise (e : exn).
Arguments Ok {A} a.
Arguments Raise {A} e.

#[export] Instance result_ret : MRet result := λ A a, Ok a.

#[export] Instance result_bind : MBind result := λ A B f r,
  match r with
  | Ok a => f a
  | Raise e => Raise e
  end.

(** The status the interpreter exits with: 0 after a normal return, 1 after
    an uncaught exception, [sys.exit] with a string included. *)
Definition exit_status {A} (r : result A) : Z :=
  match r with
  | Ok _ => 0
  | Raise _ => 1
  end.

(** What an uncaught exception leaves on the error stream: the argument of
    [sys.exit], or the message of the exception. *)
Definition diagnostic (e : exn) : string :=
  match e with
  | ConfigException msg => msg
  | SystemExit msg => msg
  | KeyError key => key
  | IndexError => "list index out of range"
  | TypeError => "TypeError"
  | DuplicateKey => "duplicate key"
  | CollaboratorError what => what
  end.

Definition nl : string := String (Ascii.ascii_of_nat 10) EmptyString.

(** *** Calls that leave this module *)

(** What the run does to the outside, in order: the calls to the
    collaborators that compute or change something ([EvPrepIfgs] stands for
    the calls of [_prep_ifg] of all workers, by rank), the files written
    ([EvDump] for [cp.dump], [EvWriteLines] for [f.writelines]) and the
    registry entries called ([EvStep]). *)
Inductive event :=
| EvGetTiles (ifg_path : string)
| EvPrepIfgs (paths : list string)
| EvMkdir (dir : string)
| EvDump (file : string) (d : dict)
| EvRefPixel
| EvStep (name : string)
| EvClosureCheck
| EvWriteLines (file : string) (lines : list string)
| EvDetectUnwrappingErrors.

Definition BreachCount := list Z.
Definition Occurrences := list Z.

(** The external collaborators, over an environment [Env] that stands for
    the rasters on disk and every configuration key this module does not
    touch.  A collaborator that is handed [params] may change it. *)
Record Collaborators (Env : Type) := {
  mpi_size : positive;
  get_tiles : string → Z → Z → Env → result Tiles;
  _prep_ifg : string → Params → Env → result Ifg.t;
  get_geotiff_header_info :
    string → Env → result (list Q * gmap string string * string);
  get_epochs : dict → result EpochList;
  path_exists : string → Env → bool;
  mkdir_p : string → Env → result Env;
  preread_ifgs : Params → string;
  phase_closure_filtered_ifgs_list : Params → string;
  ref_pixel_calc_wrapper : Params → Env → result ((Z * Z) * Params * Env);
  filter_to_closure_checked_ifgs :
    Params → Env →
    result ((option (list string) * BreachCount * Occurrences) * Params * Env);
  detect_pix_with_unwrapping_errors :
    BreachCount → Occurrences → Params → Env → result (unit * Params * Env);
  orb_fit_calc_wrapper : Params → Env → result (unit * Params * Env);
  ref_phase_est_wrapper : Params → Env → result (unit * Params * Env);
  dem_error_calc_wrapper : Params → Env → result (unit * Params * Env);
  mst_calc_wrapper : Params → Env → result (unit * Params * Env);
  wrap_spatio_temporal_filter : Params → Env → result (unit * Params * Env);
  maxvar_vcm_calc_wrapper : Params → Env → result (unit * Params * Env)
}.
Arguments mpi_size {Env} _.
Arguments get_tiles {Env} _.
Arguments _prep_ifg {Env} _.
Arguments get_geotiff_header_info {Env} _.
Arguments get_epochs {Env} _.
Arguments path_exists {Env} _.
Arguments mkdir_p {Env} _.
Arguments preread_ifgs {Env} _.
Arguments phase_closure_filtered_ifgs_list {Env} _.
Arguments ref_pixel_calc_wrapper {Env} _.
Arguments filter_to_closure_checked_ifgs {Env} _.
Arguments detect_pix_with_unwrapping_errors {Env} _.
Arguments orb_fit_calc_wrapper {Env} _.
Arguments ref_phase_est_wrapper {Env} _.
Arguments dem_error_calc_wrapper {Env} _.
Arguments mst_calc_wrapper {Env} _.
Arguments wrap_spatio_temporal_filter {Env} _.
Arguments maxvar_vcm_calc_wrapper {Env} _.

(** *** The state of a run, seen from the main process

    The workflow is followed on rank 0 ([MAIN_PROCESS]): there
    [mpiops.run_once(f, ...)] is [f(...)] and [mpiops.rank == 0] holds. *)

Record State (Env : Type) := {
  params : Params;
  env : Env;
  trace : list event
}.
Arguments params {Env} _.
Arguments env {Env} _.
Arguments trace {Env} _.
Arguments Build_State {Env} _ _ _.

(** A computation returns or raises, and leaves a state either way. *)
Definition M (Env A : Type) : Type := State Env → result A * State Env.

#[export] Instance M_ret {Env} : MRet (M Env) := λ A a s, (Ok a, s).

#[export] Instance M_bind {Env} : MBind (M Env) := λ A B f m s,
  match m s with
  | (Ok a, s') => f a s'
  | (Raise e, s') => (Raise e, s')
  end.

Definition raise {Env A} (e : exn) : M Env A := λ s, (Raise e, s).

Definition emit {Env} (ev : event) : M Env unit := λ s,
  (Ok tt, Build_State (params s) (env s) (trace s ++ [ev])).

Definition get_params {Env} : M Env Params := λ s, (Ok (params s), s).

Definition modify_params {Env} (f : Params → Params) : M Env unit := λ s,
  (Ok tt, Build_State (f (params s)) (env s) (trace s)).

(** A collaborator that only reads. *)
Definition query {Env A} (f : Params → Env → result A) : M Env A := λ s,
  (f (params s) (env s), s).

(** A collaborator that may change [params] and the environment; when it
    raises, the state it had reached is not visible to this module and is
    left as it was. *)
Definition invoke {Env A} (f : Params → Env → result (A * Params * Env))
  : M Env A := λ s,
  match f (params s) (env s) with
  | Ok (a, p, e) => (Ok a, Build_State p e (trace s))
  | Raise x => (Raise x, s)
  end.

(** *** Metadata dictionary *)

(** Modelled from the spec: [mpiops.array_split] is not among the sources.
    Section 4.1: a deterministic, order-preserving split into contiguous
    slices of a fixed size (the length divided by the number of workers,
    rounded up), the final worker receiving the remainder. *)
Definition array_split {A} (size : nat) (arr : list A) (rank : nat) : list A :=
  let c := ((length arr + size - 1) / size)%nat in
  take c (drop (rank * c) arr).

(** The shares of all workers, by rank. *)
Definition shares {A} (size : nat) (arr : list A) : list (list A) :=
  array_split size arr <$> seq 0 size.

(** Two dictionaries agree when every key they share has one value. *)
Definition agree (a b : dict) : Prop :=
  map_Forall (λ k v, a !! k = None ∨ a !! k = Some v) b.

#[export] Instance agree_dec a b : Decision (agree a b).
Proof. unfold agree. apply map_Forall_dec. intros. apply _. Defined.

(** Modelled from the spec: [shared.join_dicts] is not among the sources.
    Section 4.1: a union of the partial mappings, with a runtime error when
    a key is seen twice with conflicting values. *)
Fixpoint join_dicts_from (acc : dict) (dicts : list dict) : result dict :=
  match dicts with
  | [] => Ok acc
  | d :: rest =>
      if decide (agree acc d) then join_dicts_from (acc ∪ d) rest
      else Raise DuplicateKey
  end.

Definition join_dicts (dicts : list dict) : result dict :=
  join_dicts_from ∅ dicts.

Definition preread_of (d : MultiplePaths) (ifg : Ifg.t) : PrereadIfg :=
  {| path := sampled_path d;
     tmp_path := tmp_sampled_path d;
     nan_fraction := Ifg.nan_fraction ifg;
     first := Ifg.first ifg;
     second := Ifg.second ifg;
     time_span := Ifg.time_span ifg;
     nrows := Ifg.nrows ifg;
     ncols := Ifg.ncols ifg;
     metadata := Ifg.meta_data ifg |}.

(** The loop of [_create_ifg_dict] over one worker's share
    ([for d in process_tifs]). *)
Fixpoint local_ifgs_dict {Env} (C : Collaborators Env) (p : Params) (e : Env)
    (process_tifs : list MultiplePaths) (ifgs_dict : dict) : result dict :=
  match process_tifs with
  | [] => Ok ifgs_dict
  | d :: rest =>
      match _prep_ifg C (sampled_path d) p e with
      | Ok ifg =>
          local_ifgs_dict C p e rest
            (<[tmp_sampled_path d := Preread (preread_of d ifg)]> ifgs_dict)
      | Raise x => Raise x
      end
  end.

(** [join_dicts(mpiops.comm.allgather(ifgs_dict))]: every worker builds the
    dictionary of its share, the partial dictionaries are gathered in rank
    order and joined. *)
Definition merged_ifgs_dict {Env} (C : Collaborators Env) (p : Params) (e : Env)
    (process_tifs_by_rank : list (list MultiplePaths)) : result dict :=
  mapM (λ process_tifs, local_ifgs_dict C p e process_tifs ∅) process_tifs_by_rank
  ≫= join_dicts.

(** [ifgs_dict.pop(k)] *)
Definition pop (k : string) (d : dict) : result dict :=
  match d !! k with
  | Some _ => Ok (delete k d)
  | None => Raise (KeyError k)
  end.

Fixpoint pop_all (ks : list string) (d : dict) : result dict :=
  match ks with
  | [] => Ok d
  | k :: rest => pop k d ≫= pop_all rest
  end.

(** The keys under which the header fields and the epoch list are stored. *)
Definition derived_keys : list string := ["gt"; "epochlist"; "md"; "wkt"].

(** The dictionary that [__save_ifgs_dict_with_headers_and_epochs] hands to
    [cp.dump]. *)
Definition with_headers_and_epochs (ifgs_dict : dict) (epochlist : EpochList)
    (gt : list Q) (md : gmap string string) (wkt : string) : dict :=
  <["wkt" := Wkt wkt]> (<["md" := Md md]> (<["gt" := Gt gt]>
    (<["epochlist" := Epochs epochlist]> ifgs_dict))).

Definition __save_ifgs_dict_with_headers_and_epochs {Env} (C : Collaborators Env)
    (dest_tifs : list MultiplePaths) (ifgs_dict : dict)
    (process_tifs : list MultiplePaths) : M Env dict :=
  p ← get_params;
  let tmpdir := TMPDIR p in
  ex ← query (λ _ e, Ok (path_exists C tmpdir e));
  (if negb ex
   then emit (EvMkdir tmpdir);;
        invoke (λ p e, e' ← mkdir_p C tmpdir e; Ok (tt, p, e'))
   else mret tt);;
  let preread_ifgs_file := preread_ifgs C p in
  d0 ← match process_tifs with
       | [] => raise IndexError
       | d0 :: _ => mret d0
       end;
  '(gt, md, wkt) ← query (λ _ e, get_geotiff_header_info C (tmp_sampled_path d0) e);
  epochlist ← query (λ _ _, get_epochs C ifgs_dict);
  let ifgs_dict := with_headers_and_epochs ifgs_dict epochlist gt md wkt in
  emit (EvDump preread_ifgs_file ifgs_dict);;
  query (λ _ _, pop_all derived_keys ifgs_dict).

Definition _create_ifg_dict {Env} (C : Collaborators Env) : M Env dict :=
  p ← get_params;
  let dest_tifs := INTERFEROGRAM_FILES p in
  let size := Pos.to_nat (mpi_size C) in
  let process_tifs := array_split size dest_tifs 0 in
  emit (EvPrepIfgs (sampled_path <$> dest_tifs));;
  ifgs_dict ← query (λ p e, merged_ifgs_dict C p e (shares size dest_tifs));
  ifgs_dict ← __save_ifgs_dict_with_headers_and_epochs C dest_tifs ifgs_dict
                 process_tifs;
  modify_params (with_PREREAD_IFGS ifgs_dict);;
  mret ifgs_dict.

Definition _update_params_with_tiles {Env} (C : Collaborators Env) : M Env unit :=
  p ← get_params;
  d0 ← match INTERFEROGRAM_FILES p with
       | [] => raise IndexError
       | d0 :: _ => mret d0
       end;
  let ifg_path := sampled_path d0 in
  emit (EvGetTiles ifg_path);;
  tiles ← query (λ _ e, get_tiles C ifg_path (rows p) (cols p) e);
  modify_params (with_TILES tiles).

(** *** Phase-closure step *)

Definition zero_loops_message : string :=
  "Zero loops are returned after phase clouser calcs!!! " +:+ nl +:+
  "Check your phase closure configuration!".

(** The nested function of [update_params_with_closure_checked_ifg_list];
    [ifg_files] is the variable it closes over. *)
Definition _filter_to_closure_checked_multiple_paths (ifg_files : list string)
    (multi_paths : list MultiplePaths) : list MultiplePaths :=
  filter (λ m_p, tmp_sampled_path m_p ∈ ifg_files) multi_paths.

(** Returns [None] (no value) on the early return and [params] otherwise. *)
Definition update_params_with_closure_checked_ifg_list {Env}
    (C : Collaborators Env) : M Env (option Params) :=
  p ← get_params;
  if negb (PHASE_CLOSURE p) then mret None
  else
    emit EvClosureCheck;;
    '(ifg_files, ifgs_breach_count, num_occurences_each_ifg) ←
      invoke (filter_to_closure_checked_ifgs C);
    match ifg_files with
    | None => raise (SystemExit zero_loops_message)
    | Some ifg_files =>
        modify_params (λ p, with_INTERFEROGRAM_FILES
          (_filter_to_closure_checked_multiple_paths ifg_files
             (INTERFEROGRAM_FILES p)) p);;
        p ← get_params;
        emit (EvWriteLines (phase_closure_filtered_ifgs_list C p)
                ((λ m_p, converted_path m_p +:+ nl) <$> INTERFEROGRAM_FILES p));;
        emit EvDetectUnwrappingErrors;;
        invoke (detect_pix_with_unwrapping_errors C ifgs_breach_count
                  num_occurences_each_ifg);;
        _create_ifg_dict C;;
        p ← get_params;
        mret (Some p)
    end.

(** *** Step registry and the step loop *)

Inductive step_fn (Env : Type) :=
| Wrapper (f : Params → Env → result (unit * Params * Env))
| ClosureCheck.
Arguments Wrapper {Env} f.
Arguments ClosureCheck {Env}.

(** [correct_steps], in the order the dictionary is written. *)
Definition correct_steps {Env} (C : Collaborators Env)
  : list (string * step_fn Env) :=
  [ ("orbfit", Wrapper (orb_fit_calc_wrapper C));
    ("refphase", Wrapper (ref_phase_est_wrapper C));
    ("phase_closure", ClosureCheck);
    ("demerror", Wrapper (dem_error_calc_wrapper C));
    ("mst", Wrapper (mst_calc_wrapper C));
    ("apscorrect", Wrapper (wrap_spatio_temporal_filter C));
    ("maxvar", Wrapper (maxvar_vcm_calc_wrapper C)) ].

(** [correct_steps.keys()] *)
Definition step_names : list string :=
  ["orbfit"; "refphase"; "phase_closure"; "demerror"; "mst"; "apscorrect"; "maxvar"].

(** [correct_steps[step]] *)
Fixpoint lookup_step {Env} (steps : list (string * step_fn Env)) (step : string)
  : option (step_fn Env) :=
  match steps with
  | [] => None
  | (k, f) :: rest => if decide (k = step) then Some f else lookup_step rest step
  end.

Definition quoted (s : string) : string := "'" +:+ s +:+ "'".

Fixpoint comma_separated (l : list string) : string :=
  match l with
  | [] => ""
  | [s] => s
  | s :: rest => s +:+ ", " +:+ comma_separated rest
  end.

(** The text of the [ConfigException] for an unknown step. *)
Definition unsupported_step_message (step : string) : string :=
  step +:+ " is not a supported 'correct' step. " +:+ nl +:+
  "Supported steps are dict_keys([" +:+
  comma_separated (quoted <$> step_names) +:+ "])".

Fixpoint validate_steps (steps : list string) : result unit :=
  match steps with
  | [] => Ok tt
  | step :: rest =>
      if decide (step ∈ step_names) then validate_steps rest
      else Raise (ConfigException (unsupported_step_message step))
  end.

Definition __validate_correct_steps {Env} : M Env unit :=
  query (λ p _, validate_steps (correct p)).

(** One turn of the loop of [correct_ifgs]: the registry entry is looked up
    and called, with [config] as a second argument for 'phase_closure'. *)
Definition run_step {Env} (C : Collaborators Env) (step : string) : M Env unit :=
  match lookup_step (correct_steps C) step with
  | None => raise (KeyError step)
  | Some fn =>
      emit (EvStep step);;
      if decide (step = "phase_closure") then
        match fn with
        | ClosureCheck => update_params_with_closure_checked_ifg_list C;; mret tt
        | Wrapper _ => raise TypeError
        end
      else
        match fn with
        | Wrapper f => invoke f
        | ClosureCheck => raise TypeError
        end
  end.

(** [for step in params['correct']]: the loop walks the list that the key
    is bound to when the loop starts.  A step may rebind the key; the steps
    are taken not to change that list object in place. *)
Fixpoint run_steps {Env} (C : Collaborators Env) (steps : list string)
  : M Env unit :=
  match steps with
  | [] => mret tt
  | step :: rest => run_step C step;; run_steps C rest
  end.

Definition correct_ifgs {Env} (C : Collaborators Env) : M Env unit :=
  __validate_correct_steps;;
  _update_params_with_tiles C;;
  _create_ifg_dict C;;
  emit EvRefPixel;;
  xy ← invoke (ref_pixel_calc_wrapper C);
  modify_params (with_REF_FOUND xy);;
  p ← get_params;
  run_steps C (correct p).

(** The steps called, in order, as a trace shows them. *)
Definition steps_called (tr : list event) : list string :=
  omap (λ ev, match ev with EvStep name => Some name | _ => None end) tr.

(** *** Entry point *)

(** The collaborators of [main] and [_copy_mlooked]: the logging set-up,
    [shutil.copy] and [Path.chmod].  Copies and mode changes act on the
    environment. *)
Record FileOps (Env : Type) := {
  mpi_vs_multiprocess_logging :
    string → Params → Env → result (unit * Params * Env);
  shutil_copy : string → string → Env → result Env;
  path_chmod : string → Z → Env → result Env
}.
Arguments mpi_vs_multiprocess_logging {Env} _.
Arguments shutil_copy {Env} _.
Arguments path_chmod {Env} _.

(** The loop of [_copy_mlooked]: each multi-looked file is copied to its
    working path, which is then made writable ([0o664] is 436). *)
Fixpoint copy_each {Env} (F : FileOps Env) (process_mpaths : list MultiplePaths)
  : M Env unit :=
  match process_mpaths with
  | [] => mret tt
  | p :: rest =>
      invoke (λ prm e,
        e' ← shutil_copy F (sampled_path p) (tmp_sampled_path p) e;
        Ok (tt, prm, e'));;
      invoke (λ prm e,
        e' ← path_chmod F (tmp_sampled_path p) 436 e; Ok (tt, prm, e'));;
      copy_each F rest
  end.

Definition _copy_mlooked {Env} (F : FileOps Env) (C : Collaborators Env)
  : M Env unit :=
  prm ← get_params;
  let mpaths := INTERFEROGRAM_FILES prm in
  let process_mpaths := array_split (Pos.to_nat (mpi_size C)) mpaths 0 in
  copy_each F process_mpaths.

Definition main {Env} (F : FileOps Env) (C : Collaborators Env) : M Env unit :=
  invoke (mpi_vs_multiprocess_logging F "correct");;
  _copy_mlooked F C;;
  correct_ifgs C.

End Correct.
(** ** Facts about the MST reducer *)

Module MstFacts.
Import Mst.

Section forest_facts.
Implicit Types (lbl : labelling) (es : list Edge) (a b x y : EpochDate).

Lemma union_same lbl a b x y :
  lbl x = lbl y → union lbl a b x = union lbl a b y.
Proof. unfold union. intros ->. done. Qed.

Lemma union_ends lbl a b : union lbl a b a = union lbl a b b.
Proof. unfold union. repeat case_decide; congruence. Qed.

Lemma conn_mono lbl es es' x y :
  es ⊆ es' → conn lbl es x y → conn lbl es' x y.
Proof.
  intros Hsub. induction 1.
  - by apply conn_lbl.
  - apply conn_edge. by apply Hsub.
  - by apply conn_sym.
  - by eapply conn_trans.
Qed.

(** Merging the labels of [a] and [b] is the same as adding the edge. *)
Lemma conn_union lbl a b es x y :
  conn (union lbl a b) es x y ↔ conn lbl ((a, b) :: es) x y.
Proof.
  split.
  - induction 1 as [x y Hl | p q Hin | | ].
    + unfold union in Hl.
      assert (Hab : conn lbl ((a, b) :: es) a b)
        by (apply conn_edge; left).
      destruct (decide (lbl x = lbl b)) as [Hx | Hx];
        destruct (decide (lbl y = lbl b)) as [Hy | Hy].
      * apply conn_lbl. congruence.
      * apply (conn_trans _ _ x b y); [by apply conn_lbl|].
        apply (conn_trans _ _ b a y); [by apply conn_sym | by apply conn_lbl].
      * apply (conn_trans _ _ x a y); [by apply conn_lbl|].
        apply (conn_trans _ _ a b y); [done | by apply conn_lbl].
      * by apply conn_lbl.
    + apply conn_edge. by right.
    + by apply conn_sym.
    + by eapply conn_trans.
  - induction 1 as [x y Hl | p q Hin | | ].
    + apply conn_lbl. by apply union_same.
    + apply elem_of_cons in Hin as [[= -> ->] | Hin].
      * apply conn_lbl, union_ends.
      * by apply conn_edge.
    + by apply conn_sym.
    + by eapply conn_trans.
Qed.

(** An edge inside one component adds no connectivity. *)
Lemma conn_skip lbl a b es x y :
  lbl a = lbl b → conn lbl ((a, b) :: es) x y ↔ conn lbl es x y.
Proof.
  intros Hab. split.
  - induction 1 as [x y Hl | p q Hin | | ].
    + by apply conn_lbl.
    + apply elem_of_cons in Hin as [[= -> ->] | Hin].
      * by apply conn_lbl.
      * by apply conn_edge.
    + by apply conn_sym.
    + by eapply conn_trans.
  - apply conn_mono. set_solver.
Qed.

(** The final labels identify exactly the epochs joined by the input
    edges ... *)
Lemma final_labels_conn es : ∀ lbl x y,
  (spanning_forest_from lbl es).2 x = (spanning_forest_from lbl es).2 y
  ↔ conn lbl es x y.
Proof.
  induction es as [| [a b] rest IH]; intros lbl x y; simpl.
  - split; [apply conn_lbl|].
    induction 1; [done | set_solver | done | congruence].
  - case_decide as Hab.
    + rewrite IH. symmetry. by apply conn_skip.
    + specialize (IH (union lbl a b) x y).
      destruct (spanning_forest_from (union lbl a b) rest) as [t l'].
      simpl in *. rewrite IH. apply conn_union.
Qed.

(** ... and exactly the epochs joined by the edges that were kept. *)
Lemma final_labels_forest es : ∀ lbl x y,
  (spanning_forest_from lbl es).2 x = (spanning_forest_from lbl es).2 y
  ↔ conn lbl (spanning_forest_from lbl es).1 x y.
Proof.
  induction es as [| [a b] rest IH]; intros lbl x y; simpl.
  - split; [apply conn_lbl|].
    induction 1; [done | set_solver | done | congruence].
  - case_decide as Hab.
    + apply IH.
    + specialize (IH (union lbl a b) x y).
      destruct (spanning_forest_from (union lbl a b) rest) as [t l'].
      simpl in *. rewrite IH. apply conn_union.
Qed.

(** The kept edges are input edges, in input order. *)
Lemma forest_sublist es : ∀ lbl,
  (spanning_forest_from lbl es).1 `sublist_of` es.
Proof.
  induction es as [| [a b] rest IH]; intros lbl; simpl; [done|].
  case_decide.
  - by apply sublist_cons.
  - specialize (IH (union lbl a b)).
    destruct (spanning_forest_from (union lbl a b) rest) as [t l'].
    by apply sublist_skip.
Qed.

Lemma epochs_of_cons a b es :
  epochs_of ((a, b) :: es) = {[a]} ∪ {[b]} ∪ epochs_of es.
Proof. unfold epochs_of. simpl. set_solver. Qed.

Lemma set_map_union lbl a b (N : gset EpochDate) :
  a ∈ N → b ∈ N → lbl a ≠ lbl b →
  set_map (D:=gset EpochDate) (union lbl a b) N
  = set_map (D:=gset EpochDate) lbl N ∖ {[lbl b]}.
Proof.
  intros Ha Hb Hab. apply set_eq. intros v.
  rewrite elem_of_difference, !elem_of_map, not_elem_of_singleton.
  unfold union. split.
  - intros (x & -> & Hx). case_decide; split; eauto.
  - intros [(x & -> & Hx) Hne]. exists x. split; [|done].
    by rewrite decide_False.
Qed.

(** Every kept edge merges two components: labels before the scan are
    the kept edges plus the labels left after it. *)
Lemma forest_count es : ∀ lbl (N : gset EpochDate),
  epochs_of es ⊆ N →
  size (set_map (D:=gset EpochDate) lbl N)
  = length (spanning_forest_from lbl es).1
    + size (set_map (D:=gset EpochDate) (spanning_forest_from lbl es).2 N).
Proof.
  induction es as [| [a b] rest IH]; intros lbl N HN; simpl; [done|].
  rewrite epochs_of_cons in HN.
  case_decide as Hab.
  - apply IH. set_solver.
  - specialize (IH (union lbl a b) N).
    destruct (spanning_forest_from (union lbl a b) rest) as [t l'].
    simpl in *. rewrite <- IH by set_solver.
    rewrite set_map_union by set_solver.
    assert (lbl b ∈ set_map (D:=gset EpochDate) lbl N)
      by (apply elem_of_map; exists b; set_solver).
    rewrite size_difference by set_solver.
    rewrite size_singleton.
    assert (size (set_map (D:=gset EpochDate) lbl N) ≠ 0).
    { apply size_non_empty_iff. set_solver. }
    lia.
Qed.

Lemma set_map_id (N : gset EpochDate) :
  set_map (D:=gset EpochDate) id N = N.
Proof. apply set_eq. intros v. rewrite elem_of_map. naive_solver. Qed.

(** Edges kept plus components left make up the epochs of the network. *)
Lemma forest_size es :
  length (spanning_forest es)
  + size (set_map (D:=gset EpochDate) (final_labels es) (epochs_of es))
  = size (epochs_of es).
Proof.
  unfold spanning_forest, final_labels.
  rewrite <- (forest_count es id (epochs_of es)) by done.
  by rewrite set_map_id.
Qed.

Lemma final_labels_linked es x y :
  final_labels es x = final_labels es y ↔ linked es x y.
Proof. apply final_labels_conn. Qed.


Lemma components_connected es :
  epochs_of es ≠ ∅ → graph_connected es →
  size (set_map (D:=gset EpochDate) (final_labels es) (epochs_of es)) = 1.
Proof.
  intros Hne Hconn.
  apply set_choose_L in Hne as [a Ha].
  replace (set_map (D:=gset EpochDate) (final_labels es) (epochs_of es))
    with ({[final_labels es a]} : gset EpochDate);
    [apply size_singleton|].
  apply set_eq. intros v. rewrite elem_of_singleton, elem_of_map. split.
  - intros ->. eauto.
  - intros (b & -> & Hb). apply final_labels_linked. by apply Hconn.
Qed.


(** On a connected network the forest is a spanning tree. *)
Lemma forest_spanning es :
  epochs_of es ≠ ∅ → graph_connected es →
  length (spanning_forest es) + 1 = size (epochs_of es).
Proof.
  intros Hne Hconn. pose proof (forest_size es).
  pose proof (components_connected es Hne Hconn). lia.
Qed.

Lemma spanning_forest_sublist es : spanning_forest es `sublist_of` es.
Proof. apply forest_sublist. Qed.

Lemma elem_of_epochs_of es a :
  a ∈ epochs_of es ↔ ∃ e, e ∈ es ∧ (a = e.1 ∨ a = e.2).
Proof.
  unfold epochs_of. rewrite elem_of_list_to_set, elem_of_app, !list_elem_of_fmap.
  naive_solver.
Qed.

Lemma linked_endpoints es x y :
  linked es x y → x = y ∨ (x ∈ epochs_of es ∧ y ∈ epochs_of es).
Proof.
  induction 1 as [x y Hl | p q Hin | x y _ IH | x y z _ IH1 _ IH2].
  - by left.
  - right. rewrite !elem_of_epochs_of. split; exists (p, q); naive_solver.
  - naive_solver.
  - naive_solver.
Qed.

(** Both epochs of an input edge that is not a self-loop are nodes of the
    forest. *)
Lemma forest_covers es a b :
  (a, b) ∈ es → a ≠ b →
  a ∈ epochs_of (spanning_forest es) ∧ b ∈ epochs_of (spanning_forest es).
Proof.
  intros Hin Hne.
  assert (Hl : linked (spanning_forest es) a b).
  { apply final_labels_forest. apply final_labels_conn. by apply conn_edge. }
  apply linked_endpoints in Hl. naive_solver.
Qed.

End forest_facts.

(** [MSTTests.test_partial_nan_pixel_stack]: three coherent interferograms
    out of five give three edges, a single one gives one edge. *)
Example test_partial_nan_pixel_stack_3 :
  length <$> mst_pixel [mock 1 2 (Finite 5); mock 2 3 (Finite 7); mock 3 4 (Finite 1);
                        mock 1 3 NaN; mock 2 4 NaN] 0 0 = Some 3.
Proof. vm_compute. reflexivity. Qed.

Example test_partial_nan_pixel_stack_1 :
  length <$> mst_pixel [mock 1 2 (Finite 5); mock 2 3 NaN; mock 3 4 NaN;
                        mock 1 3 NaN; mock 2 4 NaN] 0 0 = Some 1.
Proof. vm_compute. reflexivity. Qed.

(** [MSTTests.test_all_nan_pixel_stack]: a full stack of NaNs gives NaN. *)
Example test_all_nan_pixel_stack :
  mst_matrix [mock 1 2 NaN; mock 2 3 NaN; mock 1 3 NaN] [1; 2; 3] = [[None]].
Proof. vm_compute. reflexivity. Qed.

(** [DefaultMSTTests.test_default_mst]: five interferograms over six epochs
    give five edges. *)
Example test_default_mst :
  default_mst [mock 1 2 NaN; mock 2 3 NaN; mock 3 4 NaN; mock 4 5 NaN; mock 5 6 NaN]
  = [(1, 2); (2, 3); (3, 4); (4, 5); (5, 6)].
Proof. vm_compute. reflexivity. Qed.

Lemma coherent_nil_iff ifgs y x :
  coherent ifgs y x = [] ↔ ∀ i, i ∈ ifgs → isnan (pixel i y x) = true.
Proof.
  unfold coherent. split.
  - intros Hnil i Hi. destruct (isnan (pixel i y x)) eqn:Hp; [done|].
    assert (i ∈ filter (λ i, isnan (pixel i y x) = false) ifgs)
      by (by apply list_elem_of_filter).
    rewrite Hnil in *. set_solver.
  - intros Hall. induction ifgs as [| i rest IH]; [done|].
    rewrite filter_cons_False.
    + apply IH. intros j Hj. apply Hall. by right.
    + rewrite (Hall i) by left. done.
Qed.

Lemma epochs_of_nil : epochs_of [] = ∅.
Proof. done. Qed.


Lemma mst_pixel_no_coherent ifgs y x :
  coherent ifgs y x = [] → mst_pixel ifgs y x = None.
Proof. intros Hnil. unfold mst_pixel. rewrite Hnil. done. Qed.

(** A network whose final labels are all the same is connected: this is
    how connectivity of a concrete network is checked by evaluation. *)
Lemma connected_by_labels es :
  size (set_map (D:=gset EpochDate) (final_labels es) (epochs_of es)) ≤ 1 →
  graph_connected es.
Proof.
  intros Hs a b Ha Hb. apply final_labels_linked.
  destruct (decide (final_labels es a = final_labels es b)) as [|Hne]; [done|].
  exfalso.
  assert (Hsub : ({[final_labels es a]} ∪ {[final_labels es b]} : gset EpochDate)
                 ⊆ set_map (D:=gset EpochDate) (final_labels es) (epochs_of es)).
  { intros v. rewrite elem_of_union, !elem_of_singleton, elem_of_map.
    intros [-> | ->]; eauto. }
  apply subseteq_size in Hsub.
  rewrite size_union in Hsub by set_solver.
  rewrite !size_singleton in Hsub. lia.
Qed.




(** C2, as stated, fails on the model: a network in two pieces gives a
    forest with fewer than [m - 1] edges, and the epoch of an interferogram
    that joins an epoch to itself is not a node of the tree. *)
Lemma default_mst_claim_counterexample :
  ¬ default_mst_claim [mock 1 2 NaN; mock 3 4 NaN] ∧
  ¬ default_mst_claim [mock 1 1 NaN].
Proof.
  split; intros (H1 & H2 & H3).
  - vm_compute in H1. discriminate.
  - assert (Hin : 1 ∈ epochs_of (edge_of <$> [mock 1 1 NaN])).
    { apply elem_of_epochs_of. exists (1, 1). split; [left | by left]. }
    apply H3, elem_of_epochs_of in Hin as (e & He & _).
    assert (Hd : default_mst [mock 1 1 NaN] = []) by (vm_compute; reflexivity).
    rewrite Hd in He. inversion He.
Qed.

(** C2 (amended): for every non-empty interferogram network, every edge
    returned by [default_mst] is a (first, second) pair of the input, in
    input order; when every interferogram joins two distinct epochs, every
    epoch of the network is a node of the returned forest; and when the
    network is connected, the forest has exactly [m - 1] edges for the [m]
    epochs of the network. *)
Theorem default_mst_coverage (ifgs : list Ifg) :
  ifgs ≠ [] →
  let es := edge_of <$> ifgs in
  let t := default_mst ifgs in
  t `sublist_of` es ∧
  (∀ e, e ∈ t → e ∈ es) ∧
  ((∀ i, i ∈ ifgs → first i ≠ second i) →
   ∀ a, a ∈ epochs_of es → a ∈ epochs_of t) ∧
  (graph_connected es → length t + 1 = size (epochs_of es)).
Proof.
  intros Hne es t.
  assert (Hsub : t `sublist_of` es) by apply spanning_forest_sublist.
  repeat split.
  - done.
  - intros e He. by eapply elem_of_sublist.
  - intros Hloop a Ha.
    apply elem_of_epochs_of in Ha as ([p q] & He & Ha).
    assert (p ≠ q).
    { subst es. apply list_elem_of_fmap in He as (i & [= -> ->] & Hi).
      by apply Hloop. }
    destruct (forest_covers es p q He ltac:(done)) as [Hp Hq].
    simpl in Ha. by destruct Ha as [-> | ->].
  - intros Hc. apply forest_spanning; [|done].
    destruct ifgs as [| i rest]; [done|].
    assert (first i ∈ epochs_of es); [|set_solver].
    apply elem_of_epochs_of. exists (edge_of i). split; [left | by left].
Qed.

(** The amended C2 on a connected network of three interferograms over three
    epochs, the last one redundant. *)
Lemma default_mst_coverage_witness :
  default_mst [mock 1 2 NaN; mock 2 3 NaN; mock 1 3 NaN] `sublist_of` [(1, 2); (2, 3); (1, 3)]
  ∧ 3 ∈ epochs_of (default_mst [mock 1 2 NaN; mock 2 3 NaN; mock 1 3 NaN])
  ∧ length (default_mst [mock 1 2 NaN; mock 2 3 NaN; mock 1 3 NaN]) + 1 = 3.
Proof.
  destruct (default_mst_coverage [mock 1 2 NaN; mock 2 3 NaN; mock 1 3 NaN]
              ltac:(discriminate)) as (Hsub & _ & Hcov & Hlen).
  split; [exact Hsub|]. split.
  - apply Hcov.
    + intros i Hi. vm_compute in Hi.
      repeat (apply elem_of_cons in Hi as [-> | Hi]; [vm_compute; lia|]).
      inversion Hi.
    + apply elem_of_epochs_of. exists (2, 3). split; [right; left | by right].
  - change 3 with (size (epochs_of (edge_of <$>
      [mock 1 2 NaN; mock 2 3 NaN; mock 1 3 NaN]))).
    apply Hlen. apply connected_by_labels. vm_compute. lia.
Defined.

(** C3: for a stack of any raster shape, the MST matrix has the shape of the
    input rasters, and at every pixel at which all interferograms are
    missing the cell holds the missing marker (the cell exists, and it is
    not a tree). *)
Theorem mst_matrix_all_nan (i0 : Ifg) (rest : list Ifg) (epochs : list EpochDate) :
  let ifgs := i0 :: rest in
  let res := mst_matrix ifgs epochs in
  length res = nrows i0 ∧
  (∀ row, row ∈ res → length row = ncols i0) ∧
  (∀ y x, y < nrows i0 → x < ncols i0 →
          (∀ i, i ∈ ifgs → isnan (pixel i y x) = true) →
          cell res y x = Some None).
Proof.
  intros ifgs res. subst res. unfold mst_matrix. subst ifgs. repeat split.
  - by rewrite length_fmap, length_seq.
  - intros row Hrow. apply list_elem_of_fmap in Hrow as (y & -> & _).
    by rewrite length_fmap, length_seq.
  - intros y x Hy Hx Hall. unfold cell.
    rewrite list_lookup_fmap, lookup_seq_lt by done. simpl.
    rewrite list_lookup_fmap, lookup_seq_lt by done. simpl.
    f_equal. apply mst_pixel_no_coherent. by apply coherent_nil_iff.
Qed.

(** C3 on a stack of two 1 x 2 rasters, both missing at pixel (0, 1). *)
Lemma mst_matrix_all_nan_witness :
  cell (mst_matrix
          [ {| first := 1; second := 2; nrows := 1; ncols := 2;
               phase_data := [[Finite 3; NaN]] |};
            {| first := 2; second := 3; nrows := 1; ncols := 2;
               phase_data := [[Finite 4; NaN]] |} ] [1; 2; 3]) 0 1 = Some None.
Proof.
  apply (mst_matrix_all_nan
    {| first := 1; second := 2; nrows := 1; ncols := 2;
       phase_data := [[Finite 3; NaN]] |}
    [ {| first := 2; second := 3; nrows := 1; ncols := 2;
         phase_data := [[Finite 4; NaN]] |} ] [1; 2; 3]).
  - simpl. lia.
  - simpl. lia.
  - intros i Hi.
    repeat (apply elem_of_cons in Hi as [-> | Hi]; [reflexivity|]).
    inversion Hi.
Defined.

End MstFacts.

(** ** Facts about the correction workflow *)

Module CorrectFacts.
Import Correct.

(** Unfold one layer of the state-and-exception plumbing. *)
Ltac run :=
  unfold mbind, M_bind, mret, M_ret, raise, emit, get_params, modify_params,
    query, invoke; simpl.

(** Stub collaborators for the examples: nothing fails, the closure check
    keeps the paths in [kept] (or reports zero loops), the header and the
    epoch list are fixed values. *)
Definition stub_ifg : Ifg.t :=
  {| Ifg.nan_fraction := 0%Q; Ifg.first := 1; Ifg.second := 2;
     Ifg.time_span := 1%Q; Ifg.nrows := 1; Ifg.ncols := 1; Ifg.meta_data := ∅ |}.

Definition stub_epochs : EpochList := {| dates := [1; 2]; repeat := [1; 1]; spans := [] |}.

Definition stubs (workers : positive) (kept : option (list string))
  : Collaborators unit :=
  {| mpi_size := workers;
     get_tiles := λ _ _ _ _, Ok [(0, 1, 0, 1)];
     _prep_ifg := λ _ _ _, Ok stub_ifg;
     get_geotiff_header_info := λ _ _, Ok ([], ∅, "wkt-of-raster");
     get_epochs := λ _, Ok stub_epochs;
     path_exists := λ _ _, true;
     mkdir_p := λ _ e, Ok e;
     preread_ifgs := λ p, TMPDIR p +:+ "/preread_ifgs.pk";
     phase_closure_filtered_ifgs_list := λ p, TMPDIR p +:+ "/ifg_list";
     ref_pixel_calc_wrapper := λ p e, Ok ((0, 0)%Z, p, e);
     filter_to_closure_checked_ifgs := λ p e, Ok ((kept, [], []), p, e);
     detect_pix_with_unwrapping_errors := λ _ _ p e, Ok (tt, p, e);
     orb_fit_calc_wrapper := λ p e, Ok (tt, p, e);
     ref_phase_est_wrapper := λ p e, Ok (tt, p, e);
     dem_error_calc_wrapper := λ p e, Ok (tt, p, e);
     mst_calc_wrapper := λ p e, Ok (tt, p, e);
     wrap_spatio_temporal_filter := λ p e, Ok (tt, p, e);
     maxvar_vcm_calc_wrapper := λ p e, Ok (tt, p, e) |}.

Definition mp (name : string) : MultiplePaths :=
  {| converted_path := "conv/" +:+ name;
     sampled_path := "out/" +:+ name;
     tmp_sampled_path := "tmp/" +:+ name |}.

Definition stub_params (steps : list string) (closure : bool) : Params :=
  {| correct := steps; PHASE_CLOSURE := closure;
     INTERFEROGRAM_FILES := [mp "a.tif"; mp "b.tif"; mp "c.tif"];
     TMPDIR := "tmp"; rows := 1; cols := 1;
     TILES := None; PREREAD_IFGS := None; REFX_FOUND := None; REFY_FOUND := None |}.

Definition stub_state (steps : list string) (closure : bool) : State unit :=
  Build_State (stub_params steps closure) tt [].

(** Stub collaborators whose 'mst' entry fails. *)
Definition stubs_mst_fails (what : string) : Collaborators unit :=
  {| mpi_size := 1;
     get_tiles := get_tiles (stubs 1 None);
     _prep_ifg := _prep_ifg (stubs 1 None);
     get_geotiff_header_info := get_geotiff_header_info (stubs 1 None);
     get_epochs := get_epochs (stubs 1 None);
     path_exists := path_exists (stubs 1 None);
     mkdir_p := mkdir_p (stubs 1 None);
     preread_ifgs := preread_ifgs (stubs 1 None);
     phase_closure_filtered_ifgs_list :=
       phase_closure_filtered_ifgs_list (stubs 1 None);
     ref_pixel_calc_wrapper := ref_pixel_calc_wrapper (stubs 1 None);
     filter_to_closure_checked_ifgs :=
       filter_to_closure_checked_ifgs (stubs 1 None);
     detect_pix_with_unwrapping_errors :=
       detect_pix_with_unwrapping_errors (stubs 1 None);
     orb_fit_calc_wrapper := orb_fit_calc_wrapper (stubs 1 None);
     ref_phase_est_wrapper := ref_phase_est_wrapper (stubs 1 None);
     dem_error_calc_wrapper := dem_error_calc_wrapper (stubs 1 None);
     mst_calc_wrapper := λ _ _, Raise (CollaboratorError what);
     wrap_spatio_temporal_filter := wrap_spatio_temporal_filter (stubs 1 None);
     maxvar_vcm_calc_wrapper := maxvar_vcm_calc_wrapper (stubs 1 None) |}.

(** File operations that record what they do in the environment. *)
Inductive file_op :=
| Copied (src dst : string)
| Chmodded (file : string) (mode : Z).

Definition recording_ops (unreadable : list string) : FileOps (list file_op) :=
  {| mpi_vs_multiprocess_logging := λ _ p e, Ok (tt, p, e);
     shutil_copy := λ src dst e,
       if decide (src ∈ unreadable) then Raise (CollaboratorError src)
       else Ok (e ++ [Copied src dst]);
     path_chmod := λ file mode e, Ok (e ++ [Chmodded file mode]) |}.

Definition recording_collaborators : Collaborators (list file_op) :=
  {| mpi_size := 1;
     get_tiles := λ _ _ _ _, Ok [(0, 1, 0, 1)];
     _prep_ifg := λ _ _ _, Ok stub_ifg;
     get_geotiff_header_info := λ _ _, Ok ([], ∅, "wkt-of-raster");
     get_epochs := λ _, Ok stub_epochs;
     path_exists := λ _ _, true;
     mkdir_p := λ _ e, Ok e;
     preread_ifgs := λ p, TMPDIR p +:+ "/preread_ifgs.pk";
     phase_closure_filtered_ifgs_list := λ p, TMPDIR p +:+ "/ifg_list";
     ref_pixel_calc_wrapper := λ p e, Ok ((0, 0)%Z, p, e);
     filter_to_closure_checked_ifgs := λ p e, Ok ((None, [], []), p, e);
     detect_pix_with_unwrapping_errors := λ _ _ p e, Ok (tt, p, e);
     orb_fit_calc_wrapper := λ p e, Ok (tt, p, e);
     ref_phase_est_wrapper := λ p e, Ok (tt, p, e);
     dem_error_calc_wrapper := λ p e, Ok (tt, p, e);
     mst_calc_wrapper := λ p e, Ok (tt, p, e);
     wrap_spatio_temporal_filter := λ p e, Ok (tt, p, e);
     maxvar_vcm_calc_wrapper := λ p e, Ok (tt, p, e) |}.

(** Collaborators whose [_prep_ifg] cannot read one file. *)
Definition stubs_unreadable (bad : string) : Collaborators unit :=
  {| mpi_size := 2;
     get_tiles := get_tiles (stubs 1 None);
     _prep_ifg := λ file _ _,
       if decide (file = bad) then Raise (CollaboratorError file) else Ok stub_ifg;
     get_geotiff_header_info := get_geotiff_header_info (stubs 1 None);
     get_epochs := get_epochs (stubs 1 None);
     path_exists := path_exists (stubs 1 None);
     mkdir_p := mkdir_p (stubs 1 None);
     preread_ifgs := preread_ifgs (stubs 1 None);
     phase_closure_filtered_ifgs_list :=
       phase_closure_filtered_ifgs_list (stubs 1 None);
     ref_pixel_calc_wrapper := ref_pixel_calc_wrapper (stubs 1 None);
     filter_to_closure_checked_ifgs :=
       filter_to_closure_checked_ifgs (stubs 1 None);
     detect_pix_with_unwrapping_errors :=
       detect_pix_with_unwrapping_errors (stubs 1 None);
     orb_fit_calc_wrapper := orb_fit_calc_wrapper (stubs 1 None);
     ref_phase_est_wrapper := ref_phase_est_wrapper (stubs 1 None);
     dem_error_calc_wrapper := dem_error_calc_wrapper (stubs 1 None);
     mst_calc_wrapper := mst_calc_wrapper (stubs 1 None);
     wrap_spatio_temporal_filter := wrap_spatio_temporal_filter (stubs 1 None);
     maxvar_vcm_calc_wrapper := maxvar_vcm_calc_wrapper (stubs 1 None) |}.



(** Instrumented collaborators.  The environment gets a second component,
    a log of step names.  [recording C] behaves as [C] on the first
    component; each of the six imported wrappers adds to the log, when it
    returns, the key under which [correct_steps] registers it.  No other
    collaborator, and nothing in this module, writes to the log. *)
Definition logged {Env A} (name : string)
    (f : Params → Env → result (A * Params * Env))
  : Params → Env * list string → result (A * Params * (Env * list string)) :=
  λ p el,
    match f p el.1 with
    | Ok (a, p', e') => Ok (a, p', (e', el.2 ++ [name]))
    | Raise x => Raise x
    end.

Definition unlogged {Env A} (f : Params → Env → result (A * Params * Env))
  : Params → Env * list string → result (A * Params * (Env * list string)) :=
  λ p el,
    match f p el.1 with
    | Ok (a, p', e') => Ok (a, p', (e', el.2))
    | Raise x => Raise x
    end.

Definition recording {Env} (C : Collaborators Env)
  : Collaborators (Env * list string) :=
  {| mpi_size := mpi_size C;
     get_tiles := λ path r c el, get_tiles C path r c el.1;
     _prep_ifg := λ path p el, _prep_ifg C path p el.1;
     get_geotiff_header_info := λ path el, get_geotiff_header_info C path el.1;
     get_epochs := get_epochs C;
     path_exists := λ path el, path_exists C path el.1;
     mkdir_p := λ path el,
       match mkdir_p C path el.1 with
       | Ok e' => Ok (e', el.2)
       | Raise x => Raise x
       end;
     preread_ifgs := preread_ifgs C;
     phase_closure_filtered_ifgs_list := phase_closure_filtered_ifgs_list C;
     ref_pixel_calc_wrapper := unlogged (ref_pixel_calc_wrapper C);
     filter_to_closure_checked_ifgs := unlogged (filter_to_closure_checked_ifgs C);
     detect_pix_with_unwrapping_errors := λ breach occ,
       unlogged (detect_pix_with_unwrapping_errors C breach occ);
     orb_fit_calc_wrapper := logged "orbfit" (orb_fit_calc_wrapper C);
     ref_phase_est_wrapper := logged "refphase" (ref_phase_est_wrapper C);
     dem_error_calc_wrapper := logged "demerror" (dem_error_calc_wrapper C);
     mst_calc_wrapper := logged "mst" (mst_calc_wrapper C);
     wrap_spatio_temporal_filter :=
       logged "apscorrect" (wrap_spatio_temporal_filter C);
     maxvar_vcm_calc_wrapper := logged "maxvar" (maxvar_vcm_calc_wrapper C) |}.

(** What the instrumented wrappers have logged. *)
Definition call_log {Env} (s : State (Env * list string)) : list string :=
  (env s).2.

(** The names checked by [__validate_correct_steps] are the keys of the
    registry, in its order. *)
Lemma step_names_keys {Env} (C : Collaborators Env) :
  (correct_steps C).*1 = step_names.
Proof. reflexivity. Qed.

Lemma lookup_step_registered {Env} (C : Collaborators Env) step :
  step ∈ step_names → is_Some (lookup_step (correct_steps C) step).
Proof.
  unfold step_names. intros Hin.
  repeat (apply elem_of_cons in Hin as [-> | Hin]; [by eexists|]).
  inversion Hin.
Qed.

(** *** Phase-closure filter *)

(** C7: the filtered interferogram list is a sub-list of the input list (so
    its set is a subset of the input set), it holds exactly the inputs whose
    working path is retained, and filtering the output again with the same
    retained paths gives the output back. *)
Theorem closure_filter_subset_idempotent (ifg_files : list string)
    (multi_paths : list MultiplePaths) :
  let out := _filter_to_closure_checked_multiple_paths ifg_files multi_paths in
  out `sublist_of` multi_paths ∧
  (∀ m_p, m_p ∈ out → m_p ∈ multi_paths) ∧
  (∀ m_p, m_p ∈ out ↔ m_p ∈ multi_paths ∧ tmp_sampled_path m_p ∈ ifg_files) ∧
  _filter_to_closure_checked_multiple_paths ifg_files out = out.
Proof.
  intros out. subst out. unfold _filter_to_closure_checked_multiple_paths.
  split; [apply sublist_filter|]. split; [|split].
  - intros m_p Hin. by apply list_elem_of_filter in Hin as [_ ?].
  - intros m_p. rewrite list_elem_of_filter. naive_solver.
  - induction multi_paths as [| m rest IH]; [done|].
    rewrite filter_cons. case_decide as Hm.
    + rewrite filter_cons_True by done. by rewrite IH.
    + apply IH.
Qed.

(** *** Validation *)

Lemma validate_steps_ok steps :
  Forall (λ step, step ∈ step_names) steps → validate_steps steps = Ok tt.
Proof.
  induction 1 as [| step rest Hin _ IH]; simpl; [done|].
  by rewrite decide_True.
Qed.

Lemma validate_steps_unknown steps :
  ¬ Forall (λ step, step ∈ step_names) steps →
  ∃ bad, bad ∈ steps ∧ (bad ∉ step_names) ∧
         validate_steps steps
         = Raise (ConfigException (unsupported_step_message bad)).
Proof.
  induction steps as [| step rest IH]; intros Hbad; simpl.
  - destruct Hbad. constructor.
  - case_decide as Hin.
    + destruct IH as (bad & ? & ? & ?).
      * intros Hall. apply Hbad. by constructor.
      * exists bad. split; [by right | done].
    + exists step. split; [by left | done].
Qed.

(** C5: when the requested step list holds a name that is not one of the
    seven registered names, [correct_ifgs] raises [ConfigException] (for
    the first such name) and leaves the whole state as it was: no tiling,
    no metadata collection, no reference pixel, no step and no other call
    has been made. *)
Theorem unknown_step_rejected {Env} (C : Collaborators Env) (s : State Env)
    (step : string) :
  step ∈ correct (params s) → step ∉ step_names →
  ∃ bad, bad ∈ correct (params s) ∧ (bad ∉ step_names) ∧
         correct_ifgs C s
         = (Raise (ConfigException (unsupported_step_message bad)), s).
Proof.
  intros Hin Hnot.
  destruct (validate_steps_unknown (correct (params s))) as (bad & ? & ? & Hv).
  { rewrite Forall_forall. intros Hall. apply Hnot. by apply Hall. }
  exists bad. split; [done|]. split; [done|].
  unfold correct_ifgs, __validate_correct_steps. run. by rewrite Hv.
Qed.

(** C5 on the request ["orbfit"; "bogus"; "mst"]. *)
Lemma unknown_step_rejected_witness :
  ∃ bad, bad ∈ ["orbfit"; "bogus"; "mst"] ∧ (bad ∉ step_names) ∧
         correct_ifgs (stubs 1 None) (stub_state ["orbfit"; "bogus"; "mst"] false)
         = (Raise (ConfigException (unsupported_step_message bad)),
            stub_state ["orbfit"; "bogus"; "mst"] false).
Proof.
  apply (unknown_step_rejected (stubs 1 None)
           (stub_state ["orbfit"; "bogus"; "mst"] false) "bogus").
  - simpl. right. left.
  - unfold step_names. intros Hin.
    repeat (apply elem_of_cons in Hin as [Heq | Hin]; [discriminate Heq|]).
    inversion Hin.
Defined.

Example unsupported_step_message_bogus :
  unsupported_step_message "bogus"
  = "bogus is not a supported 'correct' step. " +:+ nl +:+
    "Supported steps are dict_keys(['orbfit', 'refphase', 'phase_closure', 'demerror', 'mst', 'apscorrect', 'maxvar'])".
Proof. reflexivity. Qed.

(** *** Phase-closure step *)

(** C10: with the phase-closure flag off, the phase-closure step returns at
    once with no value and the state is untouched (no closure check, the
    interferogram list as it was, no file written, no metadata rebuilt);
    called through the step loop, the only thing recorded is that the step
    was called. *)
Theorem phase_closure_disabled_is_noop {Env} (C : Collaborators Env)
    (s : State Env) :
  PHASE_CLOSURE (params s) = false →
  update_params_with_closure_checked_ifg_list C s = (Ok None, s) ∧
  run_step C "phase_closure" s
  = (Ok tt, Build_State (params s) (env s) (trace s ++ [EvStep "phase_closure"])).
Proof.
  intros Hflag. split.
  - unfold update_params_with_closure_checked_ifg_list. run.
    by rewrite Hflag.
  - unfold run_step. simpl.
    unfold update_params_with_closure_checked_ifg_list. run.
    by rewrite Hflag.
Qed.

(** C10 on a request that lists 'phase_closure' while the flag is off. *)
Lemma phase_closure_disabled_is_noop_witness :
  update_params_with_closure_checked_ifg_list (stubs 1 (Some []))
    (stub_state ["phase_closure"] false)
  = (Ok None, stub_state ["phase_closure"] false)
  ∧ run_step (stubs 1 (Some [])) "phase_closure" (stub_state ["phase_closure"] false)
    = (Ok tt, Build_State (stub_params ["phase_closure"] false) tt
                [EvStep "phase_closure"]).
Proof.
  apply (phase_closure_disabled_is_noop (stubs 1 (Some []))
           (stub_state ["phase_closure"] false)).
  reflexivity.
Defined.

(** C6: with the flag on, a closure check that returns no interferogram
    list makes the step raise [SystemExit] with the zero-loops message: the
    exit status is not zero, the message goes to the error stream, nothing
    is written or rebuilt after the check, and the step loop stops there
    whatever steps were still to come. *)
Theorem zero_loops_is_fatal {Env} (C : Collaborators Env) (s : State Env)
    (breach : BreachCount) (occ : Occurrences) (p' : Params) (e' : Env)
    (rest : list string) :
  PHASE_CLOSURE (params s) = true →
  filter_to_closure_checked_ifgs C (params s) (env s)
  = Ok ((None, breach, occ), p', e') →
  update_params_with_closure_checked_ifg_list C s
  = (Raise (SystemExit zero_loops_message),
     Build_State p' e' (trace s ++ [EvClosureCheck])) ∧
  run_steps C ("phase_closure" :: rest) s
  = (Raise (SystemExit zero_loops_message),
     Build_State p' e' (trace s ++ [EvStep "phase_closure"; EvClosureCheck])) ∧
  exit_status (run_steps C ("phase_closure" :: rest) s).1 ≠ 0%Z ∧
  diagnostic (SystemExit zero_loops_message) = zero_loops_message ∧
  zero_loops_message ≠ "".
Proof.
  intros Hflag Hcheck.
  assert (Hstep : ∀ tr, update_params_with_closure_checked_ifg_list C
                    (Build_State (params s) (env s) tr)
                  = (Raise (SystemExit zero_loops_message),
                     Build_State p' e' (tr ++ [EvClosureCheck]))).
  { intros tr. unfold update_params_with_closure_checked_ifg_list. run.
    rewrite Hflag. simpl. by rewrite Hcheck. }
  assert (Hloop : run_steps C ("phase_closure" :: rest) s
                  = (Raise (SystemExit zero_loops_message),
                     Build_State p' e'
                       (trace s ++ [EvStep "phase_closure"; EvClosureCheck]))).
  { simpl. unfold run_step. simpl. run. rewrite Hstep.
    by rewrite <- app_assoc. }
  split; [|split; [exact Hloop|]].
  - destruct s as [p e tr]. apply Hstep.
  - rewrite Hloop. done.
Qed.

(** C6 on a run whose closure check finds no loops, with two more steps
    requested after 'phase_closure'. *)
Lemma zero_loops_is_fatal_witness :
  run_steps (stubs 1 None) ["phase_closure"; "mst"; "maxvar"]
    (stub_state ["phase_closure"; "mst"; "maxvar"] true)
  = (Raise (SystemExit zero_loops_message),
     Build_State (stub_params ["phase_closure"; "mst"; "maxvar"] true) tt
       [EvStep "phase_closure"; EvClosureCheck]).
Proof.
  apply (zero_loops_is_fatal (stubs 1 None)
           (stub_state ["phase_closure"; "mst"; "maxvar"] true) [] []
           (stub_params ["phase_closure"; "mst"; "maxvar"] true) tt
           ["mst"; "maxvar"]); reflexivity.
Defined.

(** *** The step loop *)

Lemma steps_called_app tr1 tr2 :
  steps_called (tr1 ++ tr2) = steps_called tr1 ++ steps_called tr2.
Proof. apply omap_app. Qed.

(** A computation is [calm] for a relation [R] on [params] when it calls no
    step and takes [params] to an [R]-related value. *)
Section calm.
Context {Env : Type} (R : relation Params).
Hypothesis R_refl : ∀ p, R p p.
Hypothesis R_trans : ∀ p1 p2 p3, R p1 p2 → R p2 p3 → R p1 p3.
Hypothesis R_correct : ∀ p p', correct p' = correct p → R p p'.

Definition calm {A} (m : M Env A) : Prop :=
  ∀ s, (∃ new, trace (m s).2 = trace s ++ new ∧ steps_called new = [])
       ∧ R (params s) (params (m s).2).

Lemma calm_same {A} (m : M Env A) : (∀ s, (m s).2 = s) → calm m.
Proof.
  intros Hm s. rewrite Hm. split; [|done].
  exists []. by rewrite app_nil_r.
Qed.

Lemma calm_ret {A} (a : A) : calm (mret a : M Env A).
Proof. by apply calm_same. Qed.

Lemma calm_raise {A} e : calm (raise e : M Env A).
Proof. by apply calm_same. Qed.

Lemma calm_get_params : calm (get_params : M Env Params).
Proof. by apply calm_same. Qed.

Lemma calm_query {A} (f : Params → Env → result A) : calm (query f).
Proof. by apply calm_same. Qed.

Lemma calm_emit ev : steps_called [ev] = [] → calm (emit ev : M Env unit).
Proof. intros Hev s. split; [by exists [ev] | done]. Qed.

Lemma calm_modify_params f :
  (∀ p, correct (f p) = correct p) → calm (modify_params f : M Env unit).
Proof.
  intros Hf s. split; [|simpl; apply R_correct, Hf].
  exists []. by rewrite app_nil_r.
Qed.

Lemma calm_invoke {A} (f : Params → Env → result (A * Params * Env)) :
  (∀ p e a p' e', f p e = Ok (a, p', e') → R p p') → calm (invoke f).
Proof.
  intros Hf s. unfold invoke.
  destruct (f (params s) (env s)) as [[[a p'] e'] | x] eqn:Hcall; simpl.
  - split; [exists []; by rewrite app_nil_r | by eapply Hf].
  - split; [exists []; by rewrite app_nil_r | done].
Qed.

Lemma calm_bind {A B} (m : M Env A) (f : A → M Env B) :
  calm m → (∀ a, calm (f a)) → calm (m ≫= f).
Proof.
  intros Hm Hf s. unfold mbind, M_bind.
  destruct (Hm s) as [(new1 & Ht1 & Hs1) HR1].
  destruct (m s) as [[a | x] s1]; simpl in *; [|by eauto].
  destruct (Hf a s1) as [(new2 & Ht2 & Hs2) HR2].
  split; [|by eapply R_trans].
  exists (new1 ++ new2).
  rewrite Ht2, Ht1, app_assoc, steps_called_app, Hs1, Hs2. done.
Qed.


Lemma calm__save (C : Collaborators Env) dest_tifs ifgs_dict process_tifs :
  calm (__save_ifgs_dict_with_headers_and_epochs C dest_tifs ifgs_dict process_tifs).
Proof.
  unfold __save_ifgs_dict_with_headers_and_epochs.
  apply calm_bind; [apply calm_get_params|]. intros p.
  apply calm_bind; [apply calm_query|]. intros ex.
  apply calm_bind.
  { destruct ex; simpl; [apply calm_ret|].
    apply calm_bind; [by apply calm_emit|]. intros _.
    apply calm_invoke. intros p0 e a p' e' Hcall.
    destruct (mkdir_p C (TMPDIR p) e); simpl in Hcall; [|done].
    injection Hcall as _ <- _. apply R_refl. }
  intros _. apply calm_bind.
  { destruct process_tifs; [apply calm_raise | apply calm_ret]. }
  intros d0. apply calm_bind; [apply calm_query|]. intros [[gt md] wkt].
  apply calm_bind; [apply calm_query|]. intros epochlist.
  apply calm_bind; [by apply calm_emit|]. intros _.
  apply calm_query.
Qed.

Lemma calm__create_ifg_dict (C : Collaborators Env) : calm (_create_ifg_dict C).
Proof.
  unfold _create_ifg_dict.
  apply calm_bind; [apply calm_get_params|]. intros p.
  apply calm_bind; [by apply calm_emit|]. intros _.
  apply calm_bind; [apply calm_query|]. intros ifgs_dict.
  apply calm_bind; [apply calm__save|]. intros ifgs_dict'.
  apply calm_bind; [by apply calm_modify_params|]. intros _.
  apply calm_ret.
Qed.

End calm.

(** No step is called from inside the phase-closure step. *)
Lemma calm_update_params_with_closure_checked_ifg_list {Env}
    (C : Collaborators Env) :
  calm (λ _ _, True) (update_params_with_closure_checked_ifg_list C).
Proof.
  unfold update_params_with_closure_checked_ifg_list.
  apply calm_bind; [done | by apply calm_get_params |]. intros p.
  destruct (negb (PHASE_CLOSURE p)); [by apply calm_ret|].
  apply calm_bind; [done | by apply calm_emit |]. intros _.
  apply calm_bind; [done | by apply calm_invoke |].
  intros [[[ifg_files|] breach] occ]; [|by apply calm_raise].
  apply calm_bind; [done | by apply calm_modify_params |]. intros _.
  apply calm_bind; [done | by apply calm_get_params |]. intros p1.
  apply calm_bind; [done | by apply calm_emit |]. intros _.
  apply calm_bind; [done | by apply calm_emit |]. intros _.
  apply calm_bind; [done | by apply calm_invoke |]. intros _.
  apply calm_bind; [done | by apply calm__create_ifg_dict |]. intros _.
  apply calm_bind; [done | by apply calm_get_params |]. intros p2.
  by apply calm_ret.
Qed.

(** One turn of the loop records the step first and calls no other step. *)
Lemma run_step_trace {Env} (C : Collaborators Env) step (s : State Env) :
  step ∈ step_names →
  ∃ new, trace (run_step C step s).2 = trace s ++ EvStep step :: new
         ∧ steps_called new = [].
Proof.
  intros Hin. unfold run_step.
  destruct (lookup_step_registered C step Hin) as [fn Hfn]. rewrite Hfn.
  assert (Hbody : ∀ body : M Env unit, calm (λ _ _, True) body →
    ∃ new, trace ((emit (EvStep step) ≫= λ _, body) s).2
           = trace s ++ EvStep step :: new ∧ steps_called new = []).
  { intros body Hb. run.
    destruct (Hb (Build_State (params s) (env s) (trace s ++ [EvStep step])))
      as [(new & Ht & Hs) _].
    exists new. simpl in Ht. by rewrite Ht, <- app_assoc. }
  apply Hbody. case_decide; destruct fn.
  - by apply calm_raise.
  - apply calm_bind; [done | apply calm_update_params_with_closure_checked_ifg_list |].
    intros _. by apply calm_ret.
  - by apply calm_invoke.
  - by apply calm_raise.
Qed.

Lemma run_step_unregistered {Env} (C : Collaborators Env) step (s : State Env) :
  step ∉ step_names → run_step C step s = (Raise (KeyError step), s).
Proof.
  intros Hnot. unfold run_step.
  destruct (lookup_step (correct_steps C) step) eqn:Hl; [|done].
  exfalso. apply Hnot. simpl in Hl. unfold step_names.
  repeat (case_decide; [subst; set_solver|]). done.
Qed.

(** The loop calls the steps of its list from left to right and stops at
    the first one that raises. *)
Lemma run_steps_trace {Env} (C : Collaborators Env) steps : ∀ s : State Env,
  ∃ new, trace (run_steps C steps s).2 = trace s ++ new
         ∧ steps_called new `prefix_of` steps
         ∧ ((run_steps C steps s).1 = Ok tt → steps_called new = steps).
Proof.
  induction steps as [| step rest IH]; intros s; simpl.
  - exists []. rewrite app_nil_r. done.
  - destruct (decide (step ∈ step_names)) as [Hin | Hnot].
    + destruct (run_step_trace C step s Hin) as (new1 & Ht1 & Hs1).
      unfold mbind, M_bind.
      destruct (run_step C step s) as [[[] | x] s1]; simpl in *.
      * destruct (IH s1) as (new2 & Ht2 & Hp2 & Hok2).
        exists (EvStep step :: new1 ++ new2).
        rewrite Ht2, Ht1, <- app_assoc. split; [done|].
        change (EvStep step :: new1 ++ new2)
          with ([EvStep step] ++ new1 ++ new2).
        rewrite !steps_called_app, Hs1. simpl. split.
        -- by apply prefix_cons.
        -- intros Hok. by rewrite Hok2.
      * exists (EvStep step :: new1). split; [done|].
        change (EvStep step :: new1) with ([EvStep step] ++ new1).
        rewrite steps_called_app, Hs1. simpl. split; [|done].
        apply prefix_cons, prefix_nil.
    + unfold mbind, M_bind. rewrite run_step_unregistered by done.
      exists []. rewrite app_nil_r. split; [done|]. split; [|done].
      apply prefix_nil.
Qed.

(** A computation over the instrumented environment is [quiet] when it leaves
    the call log as it found it. *)
Section quiet.
Context {Env : Type}.















End quiet.










(** The same run evaluated: it returns, the loop has started the five steps
    and the wrappers have logged their four calls, in the requested order. *)
Example correct_ifgs_stub_run :
  let out := correct_ifgs (recording (stubs 2 None))
               (Build_State
                  (stub_params
                     ["demerror"; "phase_closure"; "orbfit"; "mst"; "orbfit"] false)
                  (tt, []) []) in
  out.1 = Ok tt
  ∧ steps_called (trace out.2)
    = ["demerror"; "phase_closure"; "orbfit"; "mst"; "orbfit"]
  ∧ call_log out.2 = ["demerror"; "orbfit"; "mst"; "orbfit"].
Proof. vm_compute. done. Qed.

(** A run that raises: the 'mst' wrapper fails, so the loop has started
    'orbfit' and 'mst', only 'orbfit' has been logged, and 'maxvar' is
    neither started nor logged. *)
Example correct_ifgs_stub_run_raises :
  let out := correct_ifgs (recording (stubs_mst_fails "singular matrix"))
               (Build_State (stub_params ["orbfit"; "mst"; "maxvar"] false)
                  (tt, []) []) in
  out.1 = Raise (CollaboratorError "singular matrix")
  ∧ steps_called (trace out.2) = ["orbfit"; "mst"]
  ∧ call_log out.2 = ["orbfit"].
Proof. vm_compute. done. Qed.

(** *** Metadata dictionary *)

(** The shares of the workers, put end to end, are the list that was
    split. *)
Lemma take_chunks {A} (c : nat) (arr : list A) (n : nat) :
  concat ((λ r, take c (drop (r * c) arr)) <$> seq 0 n) = take (n * c) arr.
Proof.
  induction n as [| n IH]; [done|].
  rewrite seq_S, fmap_app, concat_app, IH. simpl.
  rewrite app_nil_r, take_take_drop. f_equal. lia.
Qed.

Lemma shares_concat {A} (size : nat) (arr : list A) :
  0 < size → concat (shares size arr) = arr.
Proof.
  intros Hsize. unfold shares, array_split.
  rewrite (take_chunks ((length arr + size - 1) / size) arr size).
  apply take_ge.
  pose proof (Nat.div_mod_eq (length arr + size - 1) size) as Hdiv.
  pose proof (Nat.mod_upper_bound (length arr + size - 1) size) as Hmod.
  nia.
Qed.

Section merge.
Context {Env : Type} (C : Collaborators Env) (p : Params) (e : Env).

(** The dictionary entry of one interferogram, when it can be read. *)
Definition entry (d : MultiplePaths) : option DictVal :=
  match _prep_ifg C (sampled_path d) p e with
  | Ok ifg => Some (Preread (preread_of d ifg))
  | Raise _ => None
  end.

Lemma local_ifgs_dict_ok (l : list MultiplePaths) : ∀ acc : dict,
  (∀ d, d ∈ l → is_Some (entry d)) →
  ∃ m, local_ifgs_dict C p e l acc = Ok m.
Proof.
  induction l as [| d rest IH]; intros acc Hall; simpl; [by eexists|].
  destruct (Hall d ltac:(left)) as [v Hv]. unfold entry in Hv.
  destruct (_prep_ifg C (sampled_path d) p e); [|done].
  apply IH. intros d' Hd'. apply Hall. by right.
Qed.

Lemma local_ifgs_dict_char (l : list MultiplePaths) : ∀ (acc m : dict),
  NoDup (tmp_sampled_path <$> l) →
  local_ifgs_dict C p e l acc = Ok m →
  (∀ d, d ∈ l → is_Some (entry d)) ∧
  (∀ k v, m !! k = Some v ↔
          (∃ d, d ∈ l ∧ tmp_sampled_path d = k ∧ entry d = Some v)
          ∨ ((k ∉ tmp_sampled_path <$> l) ∧ acc !! k = Some v)).
Proof.
  induction l as [| d rest IH]; intros acc m Hnd Hloc; simpl in *.
  - injection Hloc as <-. split; [intros d Hd; inversion Hd|].
    intros k v. split; [intros ?; right; split; [set_solver | done]|].
    intros [(d & Hd & _) | [_ ?]]; [inversion Hd | done].
  - apply NoDup_cons in Hnd as [Hfresh Hnd].
    destruct (_prep_ifg C (sampled_path d) p e) as [ifg |] eqn:Hprep; [|done].
    destruct (IH _ _ Hnd Hloc) as [Hall Hchar]. split.
    + intros d' Hd'. apply elem_of_cons in Hd' as [-> | Hd']; [|by apply Hall].
      unfold entry. rewrite Hprep. by eexists.
    + intros k v. rewrite Hchar. clear Hchar. split.
      * intros [(d' & Hd' & Hk & Hv) | [Hk Hv]].
        -- left. exists d'. split; [by right | done].
        -- destruct (decide (tmp_sampled_path d = k)) as [<- | Hne].
           ++ rewrite lookup_insert_eq in Hv. injection Hv as <-.
              left. exists d. split; [by left|]. split; [done|].
              unfold entry. by rewrite Hprep.
           ++ rewrite lookup_insert_ne in Hv by done.
              right. split; [|done]. rewrite not_elem_of_cons. done.
      * intros [(d' & Hd' & Hk & Hv) | [Hk Hv]].
        -- apply elem_of_cons in Hd' as [-> | Hd'].
           ++ right. split; [by rewrite <- Hk|].
              rewrite <- Hk, lookup_insert_eq. unfold entry in Hv.
              rewrite Hprep in Hv. done.
           ++ left. by exists d'.
        -- apply not_elem_of_cons in Hk as [Hne Hk].
           right. split; [done|]. by rewrite lookup_insert_ne.
Qed.

Lemma mapM_result_Ok {A B} (f : A → result B) (l : list A) (ks : list B) :
  mapM f l = Ok ks ↔ Forall2 (λ x y, f x = Ok y) l ks.
Proof.
  revert ks. induction l as [| x l IH]; intros ks.
  - split; [intros [= <-]; constructor | by inversion 1].
  - change (mapM f (x :: l)) with (y ← f x; k ← mapM f l; mret (y :: k)).
    destruct (f x) as [y |] eqn:Hfx; simpl.
    + destruct (mapM f l) as [k |] eqn:Hm; simpl.
      * split.
        -- intros [= <-]. constructor; [done|]. by apply IH.
        -- intros HF.
           apply Forall2_cons_inv_l in HF as (y' & k' & Hy & Hk & ->).
           apply IH in Hk. change (Ok (y :: k) = Ok (y' :: k')). congruence.
      * split; [done|]. intros HF.
        apply Forall2_cons_inv_l in HF as (y' & k' & Hy & Hk & ->).
        apply IH in Hk. done.
    + split; [done|]. intros HF.
      apply Forall2_cons_inv_l in HF as (y' & k' & Hy & Hk & ->). congruence.
Qed.

(** Joining dictionaries whose keys lie in pairwise disjoint key lists
    never fails and gives their union. *)
Lemma join_dicts_from_char (keys : list (list string)) (ds : list dict) :
  Forall2 (λ ks (d : dict), ∀ k, is_Some (d !! k) → k ∈ ks) keys ds →
  ∀ acc : dict,
  NoDup (concat keys) →
  (∀ k, is_Some (acc !! k) → k ∉ concat keys) →
  ∃ m, join_dicts_from acc ds = Ok m ∧
       ∀ k v, m !! k = Some v ↔
              acc !! k = Some v ∨ ∃ d, d ∈ ds ∧ d !! k = Some v.
Proof.
  induction 1 as [| ks d keys ds Hd _ IH]; intros acc Hnd Hacc; simpl.
  - exists acc. split; [done|]. intros k v. split; [by left|].
    intros [? | (d & Hd & _)]; [done | inversion Hd].
  - simpl in Hnd. apply NoDup_app in Hnd as (Hnd1 & Hdisj & Hnd2).
    rewrite decide_True.
    2:{ intros k v Hkv. left.
        destruct (acc !! k) eqn:Hak; [|done]. exfalso.
        apply (Hacc k); [by eexists|]. simpl. apply elem_of_app. left.
        apply Hd. by eexists. }
    destruct (IH (acc ∪ d) Hnd2) as (m & Hm & Hchar).
    { intros k [v Hv] Hin. apply lookup_union_Some_raw in Hv as [Hv | [_ Hv]].
      - apply (Hacc k); [by eexists|]. simpl. apply elem_of_app. by right.
      - apply (Hdisj k); [|done]. apply Hd. by eexists. }
    exists m. split; [done|]. intros k v. rewrite Hchar, lookup_union_Some_raw.
    split.
    + intros [[? | [_ ?]] | (d' & Hd' & ?)].
      * by left.
      * right. exists d. split; [by left | done].
      * right. exists d'. split; [by right | done].
    + intros [? | (d' & Hd' & Hv)]; [by left; left|].
      apply elem_of_cons in Hd' as [-> | Hd'].
      * left. destruct (acc !! k) eqn:Hak; [|by right].
        exfalso. apply (Hacc k); [by eexists|]. simpl. apply elem_of_app. left.
        apply Hd. by eexists.
      * right. by exists d'.
Qed.

Lemma elem_of_concat_chunks {A} (x : A) (chunks : list (list A)) :
  x ∈ concat chunks ↔ ∃ ch, ch ∈ chunks ∧ x ∈ ch.
Proof.
  induction chunks as [| ch rest IH]; simpl.
  - split; [inversion 1 | intros (ch & Hch & _); inversion Hch].
  - rewrite elem_of_app, IH. split.
    + intros [? | (ch' & ? & ?)]; [exists ch | exists ch']; split;
        [by left | done | by right | done].
    + intros (ch' & Hch' & ?). apply elem_of_cons in Hch' as [-> | ?];
        [by left | right; by exists ch'].
Qed.

(** What the merged dictionary holds, whatever the split. *)
Lemma merged_ifgs_dict_char (chunks : list (list MultiplePaths)) (m : dict) :
  NoDup (tmp_sampled_path <$> concat chunks) →
  merged_ifgs_dict C p e chunks = Ok m →
  (∀ d, d ∈ concat chunks → is_Some (entry d)) ∧
  (∀ k v, m !! k = Some v ↔
          ∃ d, d ∈ concat chunks ∧ tmp_sampled_path d = k ∧ entry d = Some v).
Proof.
  intros Hnd Hm. unfold merged_ifgs_dict in Hm.
  unfold mbind at 1, result_bind in Hm.
  destruct (mapM _ chunks) as [ds |] eqn:Hds; [|done].
  apply mapM_result_Ok in Hds.
  assert (Hlocal : Forall2 (λ ch (d : dict),
            (∀ x, x ∈ ch → is_Some (entry x)) ∧
            ∀ k v, d !! k = Some v ↔
                   ∃ x, x ∈ ch ∧ tmp_sampled_path x = k ∧ entry x = Some v)
          chunks ds).
  { clear Hm. induction Hds as [| ch d chunks ds Hd _ IH]; [constructor|].
    simpl in Hnd. rewrite fmap_app in Hnd.
    apply NoDup_app in Hnd as (Hnd1 & _ & Hnd2).
    constructor; [|by apply IH].
    destruct (local_ifgs_dict_char ch ∅ d Hnd1 Hd) as [Hall Hchar].
    split; [done|]. intros k v. rewrite Hchar. split.
    - intros [? | [_ Hv]]; [done | by rewrite lookup_empty in Hv].
    - intros ?. by left. }
  set (keys := (λ ch : list MultiplePaths, tmp_sampled_path <$> ch) <$> chunks).
  assert (Hkeys : Forall2 (λ ks (d : dict), ∀ k, is_Some (d !! k) → k ∈ ks)
                    keys ds).
  { subst keys. clear -Hlocal.
    induction Hlocal as [| ch d chunks ds [_ Hd] _ IH]; constructor; [|done].
    intros k [v Hv]. apply Hd in Hv as (x & Hx & <- & _).
    apply list_elem_of_fmap. by exists x. }
  assert (Hcat : concat keys = tmp_sampled_path <$> concat chunks).
  { subst keys. clear. induction chunks as [| ch rest IH]; [done|].
    by rewrite fmap_cons, !concat_cons, fmap_app, IH. }
  destruct (join_dicts_from_char keys ds Hkeys ∅) as (m' & Hm' & Hchar).
  { by rewrite Hcat. }
  { intros k [v Hv]. by rewrite lookup_empty in Hv. }
  unfold join_dicts in Hm. rewrite Hm' in Hm. injection Hm as <-. split.
  - intros d Hd. apply elem_of_concat_chunks in Hd as (ch & Hch & Hd).
    apply list_elem_of_lookup in Hch as [i Hi].
    destruct (Forall2_lookup_l _ _ _ i ch Hlocal Hi) as (d' & _ & Hall & _).
    by apply Hall.
  - intros k v. rewrite Hchar. split.
    + intros [Hv | (d & Hd & Hv)]; [by rewrite lookup_empty in Hv|].
      apply list_elem_of_lookup in Hd as [i Hi].
      destruct (Forall2_lookup_r _ _ _ i d Hlocal Hi) as (ch & Hch & _ & Hc).
      destruct (proj1 (Hc k v) Hv) as (x & Hx & Hkx & Hvx).
      exists x. split; [|done].
      apply elem_of_concat_chunks. exists ch. split; [|done].
      apply list_elem_of_lookup. by exists i.
    + intros (x & Hx & Hk & Hv). right.
      apply elem_of_concat_chunks in Hx as (ch & Hch & Hx).
      apply list_elem_of_lookup in Hch as [i Hi].
      destruct (Forall2_lookup_l _ _ _ i ch Hlocal Hi) as (d & Hd & _ & Hc).
      exists d. split; [apply list_elem_of_lookup; by exists i|].
      apply Hc. by exists x.
Qed.

End merge.

Lemma merged_ifgs_dict_ok {Env} (C : Collaborators Env) (p : Params) (e : Env)
    (chunks : list (list MultiplePaths)) :
  NoDup (tmp_sampled_path <$> concat chunks) →
  (∀ d, d ∈ concat chunks → is_Some (entry C p e d)) →
  ∃ m, merged_ifgs_dict C p e chunks = Ok m.
Proof.
  intros Hnd Hall. unfold merged_ifgs_dict.
  assert (Hds : ∃ ds, mapM (λ process_tifs, local_ifgs_dict C p e process_tifs ∅)
                        chunks = Ok ds
                      ∧ Forall2 (λ ch (d : dict), NoDup (tmp_sampled_path <$> ch)
                           ∧ local_ifgs_dict C p e ch ∅ = Ok d) chunks ds).
  { clear -Hnd Hall. induction chunks as [| ch rest IH].
    - exists []. split; [done | constructor].
    - rewrite concat_cons, fmap_app in Hnd.
      apply NoDup_app in Hnd as (Hnd1 & _ & Hnd2).
      destruct IH as (ds & Hds & HF); [done | |].
      { intros d Hd. apply Hall. rewrite concat_cons. apply elem_of_app. by right. }
      destruct (local_ifgs_dict_ok C p e ch ∅) as [d Hd].
      { intros x Hx. apply Hall. rewrite concat_cons. apply elem_of_app. by left. }
      exists (d :: ds). split; [|by constructor].
      apply mapM_result_Ok. constructor; [done|]. by apply mapM_result_Ok. }
  destruct Hds as (ds & -> & HF). simpl.
  set (keys := (λ ch : list MultiplePaths, tmp_sampled_path <$> ch) <$> chunks).
  assert (Hcat : concat keys = tmp_sampled_path <$> concat chunks).
  { subst keys. clear. induction chunks as [| ch rest IH]; [done|].
    by rewrite fmap_cons, !concat_cons, fmap_app, IH. }
  destruct (join_dicts_from_char keys ds) with (acc := (∅ : dict))
    as (m & Hm & _).
  - subst keys. clear -HF.
    induction HF as [| ch d chunks ds [Hnd Hd] _ IH]; constructor; [|done].
    intros k [v Hv].
    destruct (local_ifgs_dict_char C p e ch ∅ d Hnd Hd) as [_ Hchar].
    apply Hchar in Hv as [(x & Hx & <- & _) | [_ Hv]].
    + apply list_elem_of_fmap. by exists x.
    + by rewrite lookup_empty in Hv.
  - by rewrite Hcat.
  - intros k [v Hv]. by rewrite lookup_empty in Hv.
  - by exists m.
Qed.

(** Two splits that hand out the same interferograms give the same merged
    dictionary. *)
Lemma merged_ifgs_dict_perm {Env} (C : Collaborators Env) (p : Params) (e : Env)
    (chunks1 chunks2 : list (list MultiplePaths)) (m : dict) :
  concat chunks1 ≡ₚ concat chunks2 →
  NoDup (tmp_sampled_path <$> concat chunks1) →
  merged_ifgs_dict C p e chunks1 = Ok m →
  merged_ifgs_dict C p e chunks2 = Ok m.
Proof.
  intros Hperm Hnd1 Hm1.
  assert (Hnd2 : NoDup (tmp_sampled_path <$> concat chunks2)) by by rewrite <- Hperm.
  destruct (merged_ifgs_dict_char C p e chunks1 m Hnd1 Hm1) as [Hall1 Hchar1].
  destruct (merged_ifgs_dict_ok C p e chunks2 Hnd2) as [m2 Hm2].
  { intros d Hd. apply Hall1. by rewrite Hperm. }
  destruct (merged_ifgs_dict_char C p e chunks2 m2 Hnd2 Hm2) as [_ Hchar2].
  rewrite Hm2. f_equal. apply map_eq. intros k. apply option_eq. intros v.
  rewrite Hchar1, Hchar2. split; intros (d & Hd & ?); exists d; split;
    [by rewrite Hperm | done | by rewrite <- Hperm | done].
Qed.

(** C8: when the working paths of the interferograms are pairwise distinct,
    the merged metadata mapping does not depend on how the list is split
    among the workers: any split whose shares together hold the same
    interferograms (whatever the boundaries, the number of workers or the
    order of the shares) merges to the mapping of the unsplit list, the
    splits made for any two numbers of workers (1, 2 and 4 among them) merge
    to the same mapping, and the keys of that mapping are the working
    paths. *)
Theorem metadata_merge_partition_independent {Env} (C : Collaborators Env)
    (p : Params) (e : Env) (dest_tifs : list MultiplePaths) :
  NoDup (tmp_sampled_path <$> dest_tifs) →
  (∀ chunks m, concat chunks ≡ₚ dest_tifs →
     merged_ifgs_dict C p e chunks = Ok m
     ↔ merged_ifgs_dict C p e [dest_tifs] = Ok m) ∧
  (∀ n1 n2 m, 0 < n1 → 0 < n2 →
     merged_ifgs_dict C p e (shares n1 dest_tifs) = Ok m
     ↔ merged_ifgs_dict C p e (shares n2 dest_tifs) = Ok m) ∧
  (∀ chunks m, concat chunks ≡ₚ dest_tifs →
     merged_ifgs_dict C p e chunks = Ok m →
     dom m = list_to_set (tmp_sampled_path <$> dest_tifs)).
Proof.
  intros Hnd.
  assert (Hone : concat [dest_tifs] = dest_tifs) by apply app_nil_r.
  split; [|split].
  - intros chunks m Hperm. split; apply merged_ifgs_dict_perm.
    + by rewrite Hone.
    + by rewrite Hperm.
    + by rewrite Hone.
    + by rewrite Hone.
  - intros n1 n2 m Hn1 Hn2. split; apply merged_ifgs_dict_perm;
      rewrite !shares_concat by done; done.
  - intros chunks m Hperm Hm.
    assert (Hnd' : NoDup (tmp_sampled_path <$> concat chunks)) by by rewrite Hperm.
    destruct (merged_ifgs_dict_char C p e chunks m Hnd' Hm) as [Hall Hchar].
    apply set_eq. intros k.
    rewrite elem_of_dom, elem_of_list_to_set, list_elem_of_fmap. split.
    + intros [v Hv]. apply Hchar in Hv as (d & Hd & <- & _).
      exists d. split; [done|]. by rewrite <- Hperm.
    + intros (d & -> & Hd). rewrite <- Hperm in Hd.
      destruct (Hall d Hd) as [v Hv]. exists v. apply Hchar. by exists d.
Qed.

(** The mapping of the three interferograms of the examples. *)
Definition three_ifgs_dict : dict :=
  <["tmp/a.tif" := Preread (preread_of (mp "a.tif") stub_ifg)]>
    (<["tmp/b.tif" := Preread (preread_of (mp "b.tif") stub_ifg)]>
    (<["tmp/c.tif" := Preread (preread_of (mp "c.tif") stub_ifg)]> ∅)).

(** C8 on three interferograms: the mapping merged from the shares of two
    workers is the mapping merged from the shares of four workers. *)
Lemma metadata_merge_partition_independent_witness :
  merged_ifgs_dict (stubs 1 None) (stub_params [] false) tt
    (shares 4 [mp "a.tif"; mp "b.tif"; mp "c.tif"]) = Ok three_ifgs_dict.
Proof.
  apply (proj1 (proj2 (metadata_merge_partition_independent (stubs 1 None)
           (stub_params [] false) tt [mp "a.tif"; mp "b.tif"; mp "c.tif"]
           ltac:(apply (bool_decide_unpack _); vm_compute; exact I)))
         2 4 three_ifgs_dict ltac:(lia) ltac:(lia)).
  vm_compute. reflexivity.
Defined.

(** The splits of the example, and the mapping they merge to. *)
Example shares_of_three :
  shares 1 [1; 2; 3] = [[1; 2; 3]] ∧
  shares 2 [1; 2; 3] = [[1; 2]; [3]] ∧
  shares 4 [1; 2; 3] = [[1]; [2]; [3]; []].
Proof. repeat split. Qed.

Example merged_of_three :
  merged_ifgs_dict (stubs 1 None) (stub_params [] false) tt
    (shares 2 [mp "a.tif"; mp "b.tif"; mp "c.tif"])
  = Ok three_ifgs_dict.
Proof. vm_compute. reflexivity. Qed.

(** *** The serialized artifact *)

Lemma elem_of_derived_keys k :
  k ∈ derived_keys ↔ k = "gt" ∨ k = "epochlist" ∨ k = "md" ∨ k = "wkt".
Proof. unfold derived_keys. set_solver. Qed.

(** Popping the four keys from the dictionary that was dumped removes
    exactly them. *)
Lemma pop_all_derived (ifgs_dict : dict) el gt md wkt :
  ∃ returned,
    pop_all derived_keys (with_headers_and_epochs ifgs_dict el gt md wkt)
    = Ok returned
    ∧ (∀ k, k ∈ derived_keys → returned !! k = None)
    ∧ (∀ k, k ∉ derived_keys → returned !! k = ifgs_dict !! k).
Proof.
  exists (delete "wkt" (delete "md" (delete "epochlist" (delete "gt"
            (with_headers_and_epochs ifgs_dict el gt md wkt))))).
  split; [|split].
  - unfold pop_all, derived_keys, pop, with_headers_and_epochs.
    by simplify_map_eq.
  - intros k Hk. apply elem_of_derived_keys in Hk.
    unfold with_headers_and_epochs.
    destruct Hk as [-> | [-> | [-> | ->]]]; by simplify_map_eq.
  - intros k Hk. rewrite elem_of_derived_keys in Hk.
    unfold with_headers_and_epochs.
    rewrite !lookup_delete_ne, !lookup_insert_ne by naive_solver. done.
Qed.

#[local] Arguments pop_all : simpl never.
#[local] Arguments with_headers_and_epochs : simpl never.

(** C9: when the working directory is there (or can be made), the header
    of the first interferogram of the share can be read and the epoch list
    can be computed, [__save_ifgs_dict_with_headers_and_epochs] returns;
    the one dictionary it dumps holds the four derived entries 'gt', 'md',
    'wkt' and 'epochlist' on top of the entries it was given; the dictionary
    it returns holds none of the four and agrees with the given one on every
    other key, so that it is the given per-interferogram mapping itself
    when no working path is one of the four names. *)
Theorem derived_fields_only_in_artifact {Env} (C : Collaborators Env)
    (s : State Env) (dest_tifs : list MultiplePaths) (ifgs_dict : dict)
    (d0 : MultiplePaths) (tl : list MultiplePaths)
    (gt : list Q) (md : gmap string string) (wkt : string) (el : EpochList)
    (e1 : Env) :
  (path_exists C (TMPDIR (params s)) (env s) = true ∧ e1 = env s)
  ∨ (path_exists C (TMPDIR (params s)) (env s) = false
     ∧ mkdir_p C (TMPDIR (params s)) (env s) = Ok e1) →
  get_geotiff_header_info C (tmp_sampled_path d0) e1 = Ok (gt, md, wkt) →
  get_epochs C ifgs_dict = Ok el →
  let persisted := with_headers_and_epochs ifgs_dict el gt md wkt in
  ∃ returned made,
    __save_ifgs_dict_with_headers_and_epochs C dest_tifs ifgs_dict (d0 :: tl) s
    = (Ok returned,
       Build_State (params s) e1
         (trace s ++ made ++ [EvDump (preread_ifgs C (params s)) persisted]))
    ∧ (made = [] ∨ made = [EvMkdir (TMPDIR (params s))])
    ∧ persisted !! "gt" = Some (Gt gt)
    ∧ persisted !! "md" = Some (Md md)
    ∧ persisted !! "wkt" = Some (Wkt wkt)
    ∧ persisted !! "epochlist" = Some (Epochs el)
    ∧ (∀ k, k ∉ derived_keys → persisted !! k = ifgs_dict !! k)
    ∧ dom persisted = dom ifgs_dict ∪ list_to_set derived_keys
    ∧ (∀ k, k ∈ derived_keys → returned !! k = None)
    ∧ (∀ k, k ∉ derived_keys → returned !! k = ifgs_dict !! k)
    ∧ dom returned = dom ifgs_dict ∖ list_to_set derived_keys
    ∧ ((∀ k, k ∈ derived_keys → ifgs_dict !! k = None) → returned = ifgs_dict).
Proof.
  intros Hdir Hhdr Hep persisted.
  destruct (pop_all_derived ifgs_dict el gt md wkt) as (returned & Hpop & Hgone & Hkept).
  fold persisted in Hpop.
  exists returned.
  exists (if path_exists C (TMPDIR (params s)) (env s) then []
          else [EvMkdir (TMPDIR (params s))]).
  split; [|split; [|repeat split]].
  - unfold __save_ifgs_dict_with_headers_and_epochs. run.
    destruct Hdir as [[-> ->] | [-> Hmk]]; simpl.
    + rewrite Hhdr. simpl. rewrite Hep. simpl. fold persisted.
      rewrite Hpop. by destruct s.
    + rewrite Hmk. simpl. rewrite Hhdr. simpl. rewrite Hep. simpl.
      fold persisted. rewrite Hpop. by rewrite <- app_assoc.
  - destruct (path_exists _ _ _); auto.
  - subst persisted. unfold with_headers_and_epochs. by simplify_map_eq.
  - subst persisted. unfold with_headers_and_epochs. by simplify_map_eq.
  - subst persisted. unfold with_headers_and_epochs. by simplify_map_eq.
  - subst persisted. unfold with_headers_and_epochs. by simplify_map_eq.
  - intros k Hk. rewrite elem_of_derived_keys in Hk.
    subst persisted. unfold with_headers_and_epochs.
    rewrite !lookup_insert_ne by naive_solver. done.
  - subst persisted. unfold with_headers_and_epochs, derived_keys.
    rewrite !dom_insert_L. set_solver.
  - done.
  - done.
  - apply set_eq. intros k.
    rewrite elem_of_difference, elem_of_list_to_set, !elem_of_dom.
    destruct (decide (k ∈ derived_keys)) as [Hk | Hk].
    + rewrite (Hgone k Hk). split; [by intros [? ?] | by intros [_ ?]].
    + rewrite (Hkept k Hk). naive_solver.
  - intros Hfree. apply map_eq. intros k.
    destruct (decide (k ∈ derived_keys)) as [Hk | Hk].
    + by rewrite (Hgone k Hk), (Hfree k Hk).
    + by apply Hkept.
Qed.

(** C9 on the mapping of two interferograms: the dump has six keys, the
    returned mapping is the mapping of the two working paths. *)
Lemma derived_fields_only_in_artifact_witness :
  ∃ returned made,
    __save_ifgs_dict_with_headers_and_epochs (stubs 1 None)
      [mp "a.tif"; mp "b.tif"]
      (<["tmp/a.tif" := Preread (preread_of (mp "a.tif") stub_ifg)]>
       (<["tmp/b.tif" := Preread (preread_of (mp "b.tif") stub_ifg)]> ∅))
      [mp "a.tif"; mp "b.tif"] (stub_state [] false)
    = (Ok returned,
       Build_State (stub_params [] false) tt
         ([] ++ made ++
          [EvDump "tmp/preread_ifgs.pk"
             (with_headers_and_epochs
                (<["tmp/a.tif" := Preread (preread_of (mp "a.tif") stub_ifg)]>
                 (<["tmp/b.tif" := Preread (preread_of (mp "b.tif") stub_ifg)]> ∅))
                stub_epochs [] ∅ "wkt-of-raster")]))
    ∧ returned
      = <["tmp/a.tif" := Preread (preread_of (mp "a.tif") stub_ifg)]>
          (<["tmp/b.tif" := Preread (preread_of (mp "b.tif") stub_ifg)]> ∅).
Proof.
  destruct (derived_fields_only_in_artifact (stubs 1 None) (stub_state [] false)
              [mp "a.tif"; mp "b.tif"]
              (<["tmp/a.tif" := Preread (preread_of (mp "a.tif") stub_ifg)]>
               (<["tmp/b.tif" := Preread (preread_of (mp "b.tif") stub_ifg)]> ∅))
              (mp "a.tif") [mp "b.tif"] [] ∅ "wkt-of-raster" stub_epochs tt)
    as (returned & made & Hrun & _ & _ & _ & _ & _ & _ & _ & _ & _ & _ & Hsame).
  - left. split; reflexivity.
  - reflexivity.
  - reflexivity.
  - exists returned, made. split; [exact Hrun|].
    apply Hsame. intros k Hk. apply elem_of_derived_keys in Hk.
    destruct Hk as [-> | [-> | [-> | ->]]]; vm_compute; reflexivity.
Defined.

(** The dump of the example has the two working paths and the four derived
    keys; a caller of [_create_ifg_dict] gets the two working paths only. *)
Example dumped_and_returned_keys :
  dom (with_headers_and_epochs
         (<["tmp/a.tif" := Preread (preread_of (mp "a.tif") stub_ifg)]>
          (<["tmp/b.tif" := Preread (preread_of (mp "b.tif") stub_ifg)]> ∅))
         stub_epochs [] ∅ "wkt-of-raster")
  = ({["tmp/a.tif"; "tmp/b.tif"; "gt"; "epochlist"; "md"; "wkt"]} : gset string)
  ∧ match (_create_ifg_dict (stubs 2 None) (stub_state [] false)).1 with
    | Ok returned =>
        dom returned = ({["tmp/a.tif"; "tmp/b.tif"; "tmp/c.tif"]} : gset string)
    | Raise _ => False
    end.
Proof. split; vm_compute; reflexivity. Qed.

(** *** Further facts: validation, the step loop, the entry point *)

(** X1: with registered steps only and no interferogram at all,
    [correct_ifgs] raises [IndexError] at [params[INTERFEROGRAM_FILES][0]],
    before [get_tiles] or any other collaborator is called. *)
Theorem no_interferograms_IndexError {Env} (C : Collaborators Env) (s : State Env) :
  Forall (λ step, step ∈ step_names) (correct (params s)) →
  INTERFEROGRAM_FILES (params s) = [] →
  correct_ifgs C s = (Raise IndexError, s).
Proof.
  intros Hreg Hnone.
  unfold correct_ifgs, __validate_correct_steps, _update_params_with_tiles. run.
  rewrite validate_steps_ok by done. by rewrite Hnone.
Qed.

Lemma no_interferograms_IndexError_witness :
  correct_ifgs (stubs 1 None)
    (Build_State (with_INTERFEROGRAM_FILES [] (stub_params ["orbfit"; "mst"] false))
       tt [])
  = (Raise IndexError,
     Build_State (with_INTERFEROGRAM_FILES [] (stub_params ["orbfit"; "mst"] false))
       tt []).
Proof.
  apply (no_interferograms_IndexError (stubs 1 None)).
  - apply (bool_decide_unpack _). vm_compute. exact I.
  - reflexivity.
Defined.

(** X2: [__validate_correct_steps] returns exactly for the lists made of
    registered names (the empty list and lists with repeated names
    included), and it leaves the state alone whether it returns or raises. *)
Theorem validation_accepts_exactly_registered {Env} (s : State Env) :
  ((__validate_correct_steps s).1 = Ok tt
   ↔ Forall (λ step, step ∈ step_names) (correct (params s)))
  ∧ (__validate_correct_steps s).2 = s.
Proof.
  split; [|done]. unfold __validate_correct_steps, query. simpl. split.
  - intros Hok.
    destruct (decide (Forall (λ step, step ∈ step_names) (correct (params s))))
      as [|Hbad]; [done|].
    apply validate_steps_unknown in Hbad as (bad & _ & _ & Hv).
    rewrite Hv in Hok. discriminate.
  - apply validate_steps_ok.
Qed.





(** Copying touches neither [params] nor the trace. *)
Lemma copy_each_frame {Env} (F : FileOps Env) (l : list MultiplePaths) :
  ∀ s : State Env,
  params (copy_each F l s).2 = params s ∧ trace (copy_each F l s).2 = trace s.
Proof.
  induction l as [| p rest IH]; intros s; simpl; [done|]. run.
  destruct (shutil_copy F (sampled_path p) (tmp_sampled_path p) (env s));
    simpl; [|done].
  destruct (path_chmod F (tmp_sampled_path p) 436 a) as [a0 |]; simpl; [|done].
  apply (IH (Build_State (params s) a0 (trace s))).
Qed.

Lemma unknown_step_known_first {Env} (C : Collaborators Env) (s : State Env)
    (step : string) :
  step ∈ correct (params s) → step ∉ step_names →
  ∃ bad, bad ∈ correct (params s) ∧ (bad ∉ step_names) ∧
         correct_ifgs C s
         = (Raise (ConfigException (unsupported_step_message bad)), s).
Proof.
  intros Hin Hnot.
  destruct (validate_steps_unknown (correct (params s))) as (bad & ? & ? & Hv).
  { rewrite Forall_forall. intros Hall. apply Hnot. by apply Hall. }
  exists bad. split; [done|]. split; [done|].
  unfold correct_ifgs, __validate_correct_steps. run. by rewrite Hv.
Qed.

(** X5: [main] makes the working copies before the step names are checked:
    when the logging set-up and the copies succeed and the step list holds
    an unregistered name, [main] raises [ConfigException] with the copies
    made, and nothing of [correct_ifgs] beyond the check has run. *)
Theorem main_copies_before_validation {Env} (F : FileOps Env)
    (C : Collaborators Env) (s s2 : State Env) (p1 : Params) (e1 : Env)
    (step : string) :
  mpi_vs_multiprocess_logging F "correct" (params s) (env s) = Ok (tt, p1, e1) →
  copy_each F (array_split (Pos.to_nat (mpi_size C)) (INTERFEROGRAM_FILES p1) 0)
    (Build_State p1 e1 (trace s)) = (Ok tt, s2) →
  step ∈ correct p1 → step ∉ step_names →
  ∃ bad, bad ∈ correct p1 ∧ (bad ∉ step_names) ∧
    main F C s = (Raise (ConfigException (unsupported_step_message bad)), s2)
    ∧ params s2 = p1 ∧ trace s2 = trace s.
Proof.
  intros Hlog Hcopy Hin Hnot.
  pose proof (copy_each_frame F
    (array_split (Pos.to_nat (mpi_size C)) (INTERFEROGRAM_FILES p1) 0)
    (Build_State p1 e1 (trace s))) as [Hp Ht].
  rewrite Hcopy in Hp, Ht. simpl in Hp, Ht.
  destruct (unknown_step_known_first C s2 step) as (bad & Hb1 & Hb2 & Hrun).
  { by rewrite Hp. }
  { done. }
  exists bad. rewrite Hp in Hb1. split; [done|]. split; [done|].
  split; [|done].
  unfold main, _copy_mlooked. run. rewrite Hlog. simpl.
  rewrite Hcopy. exact Hrun.
Qed.

Lemma main_copies_before_validation_witness :
  ∃ bad, bad ∈ ["orbfit"; "bogus"] ∧ (bad ∉ step_names) ∧
    main (recording_ops []) recording_collaborators
      (Build_State (stub_params ["orbfit"; "bogus"] false) [] [])
    = (Raise (ConfigException (unsupported_step_message bad)),
       Build_State (stub_params ["orbfit"; "bogus"] false)
         [Copied "out/a.tif" "tmp/a.tif"; Chmodded "tmp/a.tif" 436;
          Copied "out/b.tif" "tmp/b.tif"; Chmodded "tmp/b.tif" 436;
          Copied "out/c.tif" "tmp/c.tif"; Chmodded "tmp/c.tif" 436] [])
    ∧ stub_params ["orbfit"; "bogus"] false = stub_params ["orbfit"; "bogus"] false
    ∧ @nil event = [].
Proof.
  apply (main_copies_before_validation (recording_ops []) recording_collaborators
           (Build_State (stub_params ["orbfit"; "bogus"] false) [] [])
           (Build_State (stub_params ["orbfit"; "bogus"] false)
              [Copied "out/a.tif" "tmp/a.tif"; Chmodded "tmp/a.tif" 436;
               Copied "out/b.tif" "tmp/b.tif"; Chmodded "tmp/b.tif" 436;
               Copied "out/c.tif" "tmp/c.tif"; Chmodded "tmp/c.tif" 436] [])
           (stub_params ["orbfit"; "bogus"] false) [] "bogus").
  - reflexivity.
  - vm_compute. reflexivity.
  - simpl. right. left.
  - unfold step_names. intros Hin.
    repeat (apply elem_of_cons in Hin as [Heq | Hin]; [discriminate Heq|]).
    inversion Hin.
Defined.

(** X6: when a copy or a mode change raises, [main] raises the same
    exception and [correct_ifgs] is not entered: the step names are not
    checked and no tiling, metadata or step call is made; the copies made
    before the failure stay. *)
Theorem main_copy_failure {Env} (F : FileOps Env) (C : Collaborators Env)
    (s s2 : State Env) (p1 : Params) (e1 : Env) (x : exn) :
  mpi_vs_multiprocess_logging F "correct" (params s) (env s) = Ok (tt, p1, e1) →
  copy_each F (array_split (Pos.to_nat (mpi_size C)) (INTERFEROGRAM_FILES p1) 0)
    (Build_State p1 e1 (trace s)) = (Raise x, s2) →
  main F C s = (Raise x, s2) ∧ params s2 = p1 ∧ trace s2 = trace s.
Proof.
  intros Hlog Hcopy.
  pose proof (copy_each_frame F
    (array_split (Pos.to_nat (mpi_size C)) (INTERFEROGRAM_FILES p1) 0)
    (Build_State p1 e1 (trace s))) as [Hp Ht].
  rewrite Hcopy in Hp, Ht. simpl in Hp, Ht.
  split; [|done].
  unfold main, _copy_mlooked. run. rewrite Hlog. simpl. by rewrite Hcopy.
Qed.

Lemma main_copy_failure_witness :
  main (recording_ops ["out/b.tif"]) recording_collaborators
    (Build_State (stub_params ["orbfit"; "bogus"] false) [] [])
  = (Raise (CollaboratorError "out/b.tif"),
     Build_State (stub_params ["orbfit"; "bogus"] false)
       [Copied "out/a.tif" "tmp/a.tif"; Chmodded "tmp/a.tif" 436] []).
Proof.
  refine (proj1 (main_copy_failure (recording_ops ["out/b.tif"])
           recording_collaborators
           (Build_State (stub_params ["orbfit"; "bogus"] false) [] [])
           (Build_State (stub_params ["orbfit"; "bogus"] false)
              [Copied "out/a.tif" "tmp/a.tif"; Chmodded "tmp/a.tif" 436] [])
           (stub_params ["orbfit"; "bogus"] false) []
           (CollaboratorError "out/b.tif") _ _)).
  - reflexivity.
  - vm_compute. reflexivity.
Defined.

(** *** Further facts: the metadata dictionary *)

Section dictionary.
Context {Env : Type} (C : Collaborators Env) (p : Params) (e : Env).

(** A key that no interferogram of the share has as working path keeps the
    value it had. *)
Lemma local_ifgs_dict_other (l : list MultiplePaths) : ∀ (acc m : dict) k,
  local_ifgs_dict C p e l acc = Ok m →
  k ∉ tmp_sampled_path <$> l → m !! k = acc !! k.
Proof.
  induction l as [| d rest IH]; intros acc m k Hloc Hk; simpl in Hloc.
  - by injection Hloc as <-.
  - rewrite fmap_cons in Hk. apply not_elem_of_cons in Hk as [Hne Hk].
    destruct (_prep_ifg C (sampled_path d) p e) as [ifg |]; [|done].
    rewrite (IH _ _ _ Hloc Hk). by rewrite lookup_insert_ne.
Qed.

Lemma local_ifgs_dict_all_read (l : list MultiplePaths) : ∀ (acc m : dict),
  local_ifgs_dict C p e l acc = Ok m →
  ∀ d, d ∈ l → ∃ ifg, _prep_ifg C (sampled_path d) p e = Ok ifg.
Proof.
  induction l as [| d rest IH]; intros acc m Hloc d' Hd'; simpl in *.
  - inversion Hd'.
  - destruct (_prep_ifg C (sampled_path d) p e) as [ifg |] eqn:Hprep; [|done].
    apply elem_of_cons in Hd' as [-> | Hd']; [by eexists | by eapply IH].
Qed.

Lemma local_ifgs_dict_sound (l : list MultiplePaths) : ∀ (acc m : dict) k v,
  local_ifgs_dict C p e l acc = Ok m → m !! k = Some v →
  (∃ d ifg, d ∈ l ∧ tmp_sampled_path d = k
            ∧ _prep_ifg C (sampled_path d) p e = Ok ifg
            ∧ v = Preread (preread_of d ifg))
  ∨ acc !! k = Some v.
Proof.
  induction l as [| d rest IH]; intros acc m k v Hloc Hv; simpl in *.
  - injection Hloc as <-. by right.
  - destruct (_prep_ifg C (sampled_path d) p e) as [ifg |] eqn:Hprep; [|done].
    destruct (IH _ _ _ _ Hloc Hv) as [(d' & ifg' & Hd' & ?) | Hacc].
    + left. exists d', ifg'. split; [by right | done].
    + destruct (decide (tmp_sampled_path d = k)) as [<- | Hne].
      * rewrite lookup_insert_eq in Hacc. injection Hacc as <-.
        left. exists d, ifg. split; [by left | done].
      * rewrite lookup_insert_ne in Hacc by done. by right.
Qed.

(** X7: in the loop over one worker's share, the entry found under a
    working path is the one of the last interferogram of the share that has
    this working path, with the attributes read from its own file: a later
    interferogram overwrites an earlier one with the same working path. *)
Theorem local_ifgs_dict_last_wins (l1 l2 : list MultiplePaths) (d : MultiplePaths)
    (acc m : dict) :
  local_ifgs_dict C p e (l1 ++ d :: l2) acc = Ok m →
  tmp_sampled_path d ∉ tmp_sampled_path <$> l2 →
  ∃ ifg, _prep_ifg C (sampled_path d) p e = Ok ifg
         ∧ m !! tmp_sampled_path d = Some (Preread (preread_of d ifg)).
Proof.
  revert acc. induction l1 as [| d1 rest IH]; intros acc Hloc Hlast; simpl in *.
  - destruct (_prep_ifg C (sampled_path d) p e) as [ifg |] eqn:Hprep; [|done].
    exists ifg. split; [done|].
    rewrite (local_ifgs_dict_other _ _ _ _ Hloc Hlast).
    apply lookup_insert_eq.
  - destruct (_prep_ifg C (sampled_path d1) p e) as [ifg1 |]; [|done].
    by eapply IH.
Qed.

(** Every entry of a join comes from one of the joined dictionaries. *)
Lemma join_dicts_from_sound (ds : list dict) : ∀ (acc m : dict) k v,
  join_dicts_from acc ds = Ok m → m !! k = Some v →
  acc !! k = Some v ∨ ∃ d, d ∈ ds ∧ d !! k = Some v.
Proof.
  induction ds as [| d rest IH]; intros acc m k v Hj Hv; simpl in *.
  - injection Hj as <-. by left.
  - case_decide; [|done].
    destruct (IH _ _ _ _ Hj Hv) as [Hu | (d' & Hd' & ?)].
    + apply lookup_union_Some_raw in Hu as [? | [_ ?]]; [by left|].
      right. exists d. split; [by left | done].
    + right. exists d'. split; [by right | done].
Qed.

Lemma merged_ifgs_dict_all_read (chunks : list (list MultiplePaths)) (m : dict) :
  merged_ifgs_dict C p e chunks = Ok m →
  ∀ d, d ∈ concat chunks → ∃ ifg, _prep_ifg C (sampled_path d) p e = Ok ifg.
Proof.
  intros Hm d Hd. unfold merged_ifgs_dict in Hm.
  unfold mbind at 1, result_bind in Hm.
  destruct (mapM _ chunks) as [ds |] eqn:Hds; [|done].
  apply mapM_result_Ok in Hds.
  apply elem_of_concat_chunks in Hd as (ch & Hch & Hd).
  apply list_elem_of_lookup in Hch as [i Hi].
  destruct (Forall2_lookup_l _ _ _ i ch Hds Hi) as (dm & _ & Hloc).
  by eapply local_ifgs_dict_all_read.
Qed.

Lemma merged_ifgs_dict_sound (chunks : list (list MultiplePaths)) (m : dict) k v :
  merged_ifgs_dict C p e chunks = Ok m → m !! k = Some v →
  ∃ d ifg, d ∈ concat chunks ∧ tmp_sampled_path d = k
           ∧ _prep_ifg C (sampled_path d) p e = Ok ifg
           ∧ v = Preread (preread_of d ifg).
Proof.
  intros Hm Hv. unfold merged_ifgs_dict in Hm.
  unfold mbind at 1, result_bind in Hm.
  destruct (mapM _ chunks) as [ds |] eqn:Hds; [|done].
  apply mapM_result_Ok in Hds.
  destruct (join_dicts_from_sound _ _ _ _ _ Hm Hv) as [Hv' | (dm & Hdm & Hv')].
  - by rewrite lookup_empty in Hv'.
  - apply list_elem_of_lookup in Hdm as [i Hi].
    destruct (Forall2_lookup_r _ _ _ i dm Hds Hi) as (ch & Hch & Hloc).
    destruct (local_ifgs_dict_sound _ _ _ _ _ Hloc Hv')
      as [(d & ifg & Hd & ?) | Hv''].
    + exists d, ifg. split; [|done]. apply elem_of_concat_chunks.
      exists ch. split; [|done]. apply list_elem_of_lookup. by exists i.
    + by rewrite lookup_empty in Hv''.
Qed.

End dictionary.

(** What a run of [_create_ifg_dict] that returns has gone through. *)
Lemma _create_ifg_dict_Ok_inv {Env} (C : Collaborators Env) (s s' : State Env)
    (d : dict) :
  _create_ifg_dict C s = (Ok d, s') →
  ∃ ifgs_dict el gt md wkt e1 made,
    merged_ifgs_dict C (params s) (env s)
      (shares (Pos.to_nat (mpi_size C)) (INTERFEROGRAM_FILES (params s)))
    = Ok ifgs_dict
    ∧ pop_all derived_keys (with_headers_and_epochs ifgs_dict el gt md wkt) = Ok d
    ∧ (made = [] ∨ made = [EvMkdir (TMPDIR (params s))])
    ∧ s' = Build_State (with_PREREAD_IFGS d (params s)) e1
             (trace s
              ++ [EvPrepIfgs (sampled_path <$> INTERFEROGRAM_FILES (params s))]
              ++ made
              ++ [EvDump (preread_ifgs C (params s))
                    (with_headers_and_epochs ifgs_dict el gt md wkt)]).
Proof.
  unfold _create_ifg_dict, __save_ifgs_dict_with_headers_and_epochs. run.
  destruct (merged_ifgs_dict C (params s) (env s) _) as [ifgs_dict |] eqn:Hm;
    simpl; [|done].
  destruct (path_exists C (TMPDIR (params s)) (env s)) eqn:Hex; simpl.
  - destruct (array_split _ _ 0) as [| d0 tl]; simpl; [done|].
    destruct (get_geotiff_header_info C (tmp_sampled_path d0) (env s))
      as [[[gt md] wkt] |]; simpl; [|done].
    destruct (get_epochs C ifgs_dict) as [el |]; simpl; [|done].
    destruct (pop_all derived_keys _) as [d' |] eqn:Hpop; simpl; [|done].
    intros [= <- <-].
    exists ifgs_dict, el, gt, md, wkt, (env s), [].
    split; [done|]. split; [done|]. split; [by left|].
    by rewrite <- !app_assoc.
  - destruct (mkdir_p C (TMPDIR (params s)) (env s)) as [e1 |]; simpl; [|done].
    destruct (array_split _ _ 0) as [| d0 tl]; simpl; [done|].
    destruct (get_geotiff_header_info C (tmp_sampled_path d0) e1)
      as [[[gt md] wkt] |]; simpl; [|done].
    destruct (get_epochs C ifgs_dict) as [el |]; simpl; [|done].
    destruct (pop_all derived_keys _) as [d' |] eqn:Hpop; simpl; [|done].
    intros [= <- <-].
    exists ifgs_dict, el, gt, md, wkt, e1, [EvMkdir (TMPDIR (params s))].
    split; [done|]. split; [done|]. split; [by right|].
    by rewrite <- !app_assoc.
Qed.

Lemma local_ifgs_dict_last_wins_witness :
  ∃ ifg, _prep_ifg (stubs 1 None) "out/second.tif" (stub_params [] false) tt = Ok ifg
    ∧ three_ifgs_dict !! "tmp/a.tif" = Some (Preread (preread_of (mp "a.tif") stub_ifg))
    ∧ (<["tmp/a.tif" := Preread (preread_of
          {| converted_path := "conv/second.tif"; sampled_path := "out/second.tif";
             tmp_sampled_path := "tmp/a.tif" |} stub_ifg)]> three_ifgs_dict)
      !! "tmp/a.tif"
      = Some (Preread (preread_of
          {| converted_path := "conv/second.tif"; sampled_path := "out/second.tif";
             tmp_sampled_path := "tmp/a.tif" |} ifg)).
Proof.
  destruct (local_ifgs_dict_last_wins (stubs 1 None) (stub_params [] false) tt
              [mp "a.tif"; mp "b.tif"] [mp "c.tif"]
              {| converted_path := "conv/second.tif";
                 sampled_path := "out/second.tif";
                 tmp_sampled_path := "tmp/a.tif" |}
              ∅
              (<["tmp/a.tif" := Preread (preread_of
                  {| converted_path := "conv/second.tif";
                     sampled_path := "out/second.tif";
                     tmp_sampled_path := "tmp/a.tif" |} stub_ifg)]> three_ifgs_dict))
    as (ifg & Hread & Hlast).
  - vm_compute. reflexivity.
  - apply (bool_decide_unpack _). vm_compute. exact I.
  - exists ifg. split; [exact Hread|]. split; [|exact Hlast].
    vm_compute. reflexivity.
Defined.

(** X8: when [_create_ifg_dict] returns a mapping, that mapping is what it
    has stored under [params[PREREAD_IFGS]]; the other keys of [params] that
    this module uses are as before; the mapping holds none of the four
    derived keys; and the last thing done is one dump, of a dictionary that
    has the four derived keys and agrees with the returned mapping on every
    other key. *)
Theorem create_ifg_dict_stores_what_it_returns {Env} (C : Collaborators Env)
    (s s' : State Env) (d : dict) :
  _create_ifg_dict C s = (Ok d, s') →
  params s' = with_PREREAD_IFGS d (params s)
  ∧ PREREAD_IFGS (params s') = Some d
  ∧ INTERFEROGRAM_FILES (params s') = INTERFEROGRAM_FILES (params s)
  ∧ correct (params s') = correct (params s)
  ∧ (∀ k, k ∈ derived_keys → d !! k = None)
  ∧ ∃ before persisted,
      trace s' = trace s ++ before ++ [EvDump (preread_ifgs C (params s)) persisted]
      ∧ (∀ file dumped, EvDump file dumped ∉ before)
      ∧ (∀ k, k ∈ derived_keys → is_Some (persisted !! k))
      ∧ (∀ k, k ∉ derived_keys → persisted !! k = d !! k).
Proof.
  intros Hrun.
  apply _create_ifg_dict_Ok_inv in Hrun
    as (ifgs_dict & el & gt & md & wkt & e1 & made & Hm & Hpop & Hmade & ->).
  destruct (pop_all_derived ifgs_dict el gt md wkt) as (d' & Hpop' & Hgone & Hkept).
  rewrite Hpop in Hpop'. injection Hpop' as <-.
  simpl. repeat (split; [done|]).
  exists ([EvPrepIfgs (sampled_path <$> INTERFEROGRAM_FILES (params s))] ++ made),
    (with_headers_and_epochs ifgs_dict el gt md wkt).
  split; [by rewrite <- !app_assoc|]. split; [|split].
  - intros file dumped Hin. apply elem_of_app in Hin as [Hin | Hin].
    + apply list_elem_of_singleton in Hin. discriminate.
    + destruct Hmade as [-> | ->]; [inversion Hin|].
      apply list_elem_of_singleton in Hin. discriminate.
  - intros k Hk. apply elem_of_derived_keys in Hk.
    unfold with_headers_and_epochs.
    destruct Hk as [-> | [-> | [-> | ->]]]; simplify_map_eq; by eexists.
  - intros k Hk. rewrite (Hkept k Hk). rewrite elem_of_derived_keys in Hk.
    unfold with_headers_and_epochs.
    rewrite !lookup_insert_ne by naive_solver. done.
Qed.

Lemma create_ifg_dict_stores_what_it_returns_witness :
  PREREAD_IFGS (params (_create_ifg_dict (stubs 2 None) (stub_state [] false)).2)
  = Some three_ifgs_dict.
Proof.
  refine (proj1 (proj2 (create_ifg_dict_stores_what_it_returns (stubs 2 None)
            (stub_state [] false) _ three_ifgs_dict _))).
  vm_compute. reflexivity.
Defined.

Lemma _create_ifg_dict_entries {Env} (C : Collaborators Env)
    (s s' : State Env) (d : dict) (k : string) (v : DictVal) :
  _create_ifg_dict C s = (Ok d, s') →
  d !! k = Some v →
  ∃ m_p ifg,
    m_p ∈ INTERFEROGRAM_FILES (params s)
    ∧ k = tmp_sampled_path m_p
    ∧ _prep_ifg C (sampled_path m_p) (params s) (env s) = Ok ifg
    ∧ v = Preread (preread_of m_p ifg).
Proof.
  intros Hrun Hv.
  apply _create_ifg_dict_Ok_inv in Hrun
    as (ifgs_dict & el & gt & md & wkt & e1 & made & Hm & Hpop & _ & _).
  destruct (pop_all_derived ifgs_dict el gt md wkt) as (d' & Hpop' & Hgone & Hkept).
  rewrite Hpop in Hpop'. injection Hpop' as <-.
  destruct (decide (k ∈ derived_keys)) as [Hk | Hk].
  { rewrite (Hgone k Hk) in Hv. discriminate. }
  rewrite (Hkept k Hk) in Hv.
  destruct (merged_ifgs_dict_sound C _ _ _ _ k v Hm Hv)
    as (m_p & ifg & Hin & <- & Hread & ->).
  rewrite shares_concat in Hin by apply Pos2Nat.is_pos.
  exists m_p, ifg. done.
Qed.

(** X9: every entry of the mapping returned by [_create_ifg_dict] belongs to
    an interferogram of [params[INTERFEROGRAM_FILES]]: its key is the working
    path of that interferogram and its value is the [PrereadIfg] built from
    the paths of that interferogram and the attributes [_prep_ifg] has read
    from its sampled path.  The mapping holds nothing else. *)
Theorem create_ifg_dict_entries_sound {Env} (C : Collaborators Env)
    (s s' : State Env) (d : dict) (k : string) (v : DictVal) :
  _create_ifg_dict C s = (Ok d, s') →
  d !! k = Some v →
  ∃ m_p ifg,
    m_p ∈ INTERFEROGRAM_FILES (params s)
    ∧ k = tmp_sampled_path m_p
    ∧ _prep_ifg C (sampled_path m_p) (params s) (env s) = Ok ifg
    ∧ v = Preread (preread_of m_p ifg)
    ∧ path (preread_of m_p ifg) = sampled_path m_p
    ∧ tmp_path (preread_of m_p ifg) = k.
Proof.
  intros Hrun Hv.
  destruct (_create_ifg_dict_entries C s s' d k v Hrun Hv)
    as (m_p & ifg & ? & -> & ? & ->).
  exists m_p, ifg. done.
Qed.

Lemma create_ifg_dict_entries_sound_witness :
  ∃ m_p ifg,
    m_p ∈ [mp "a.tif"; mp "b.tif"; mp "c.tif"]
    ∧ "tmp/b.tif" = tmp_sampled_path m_p
    ∧ _prep_ifg (stubs 2 None) (sampled_path m_p) (stub_params [] false) tt = Ok ifg
    ∧ Preread (preread_of (mp "b.tif") stub_ifg) = Preread (preread_of m_p ifg)
    ∧ path (preread_of m_p ifg) = sampled_path m_p
    ∧ tmp_path (preread_of m_p ifg) = "tmp/b.tif".
Proof.
  refine (create_ifg_dict_entries_sound (stubs 2 None) (stub_state [] false)
            _ three_ifgs_dict "tmp/b.tif"
            (Preread (preread_of (mp "b.tif") stub_ifg)) _ _).
  - vm_compute. reflexivity.
  - vm_compute. reflexivity.
Defined.

(** X10: when [_prep_ifg] raises for an interferogram of the list,
    [_create_ifg_dict] raises as well; nothing is dumped, the working
    directory is not made, and [params] (its [PREREAD_IFGS] entry included)
    and the environment are as they were. *)
Theorem create_ifg_dict_unreadable {Env} (C : Collaborators Env) (s : State Env)
    (m_p : MultiplePaths) (x : exn) :
  m_p ∈ INTERFEROGRAM_FILES (params s) →
  _prep_ifg C (sampled_path m_p) (params s) (env s) = Raise x →
  ∃ y, _create_ifg_dict C s
       = (Raise y,
          Build_State (params s) (env s)
            (trace s
             ++ [EvPrepIfgs (sampled_path <$> INTERFEROGRAM_FILES (params s))])).
Proof.
  intros Hin Hfail.
  destruct (merged_ifgs_dict C (params s) (env s)
              (shares (Pos.to_nat (mpi_size C)) (INTERFEROGRAM_FILES (params s))))
    as [ifgs_dict | y] eqn:Hm.
  - exfalso.
    destruct (merged_ifgs_dict_all_read C _ _ _ _ Hm m_p) as [ifg Hread].
    + by rewrite shares_concat by apply Pos2Nat.is_pos.
    + congruence.
  - exists y. unfold _create_ifg_dict. run. by rewrite Hm.
Qed.

Lemma create_ifg_dict_unreadable_witness :
  ∃ y, _create_ifg_dict (stubs_unreadable "out/b.tif") (stub_state [] false)
       = (Raise y,
          Build_State (stub_params [] false) tt
            ([] ++ [EvPrepIfgs ["out/a.tif"; "out/b.tif"; "out/c.tif"]])).
Proof.
  refine (create_ifg_dict_unreadable (stubs_unreadable "out/b.tif")
            (stub_state [] false) (mp "b.tif") (CollaboratorError "out/b.tif") _ _).
  - simpl. right. left.
  - reflexivity.
Defined.

Lemma bind_Ok_inv {Env A B} (m : M Env A) (f : A → M Env B) (s s' : State Env)
    (b : B) :
  (m ≫= f) s = (Ok b, s') → ∃ a s1, m s = (Ok a, s1) ∧ f a s1 = (Ok b, s').
Proof.
  unfold mbind, M_bind. destruct (m s) as [[a | x] s1]; [|done].
  intros Hf. by exists a, s1.
Qed.

#[local] Arguments _create_ifg_dict : simpl never.

(** The phase-closure step up to the rebuilding of the metadata. *)
Lemma closure_step_until_rebuild {Env} (C : Collaborators Env) (s : State Env)
    (files : list string) (breach : BreachCount) (occ : Occurrences)
    (p1 p2 : Params) (e1 e2 : Env) :
  PHASE_CLOSURE (params s) = true →
  filter_to_closure_checked_ifgs C (params s) (env s)
  = Ok ((Some files, breach, occ), p1, e1) →
  detect_pix_with_unwrapping_errors C breach occ
    (with_INTERFEROGRAM_FILES
       (_filter_to_closure_checked_multiple_paths files (INTERFEROGRAM_FILES p1)) p1)
    e1 = Ok (tt, p2, e2) →
  update_params_with_closure_checked_ifg_list C s
  = (_create_ifg_dict C ≫= λ _, prm ← get_params; mret (Some prm))
      (Build_State p2 e2
         (trace s
          ++ [EvClosureCheck;
              EvWriteLines
                (phase_closure_filtered_ifgs_list C
                   (with_INTERFEROGRAM_FILES
                      (_filter_to_closure_checked_multiple_paths files
                         (INTERFEROGRAM_FILES p1)) p1))
                ((λ m_p, converted_path m_p +:+ nl)
                 <$> _filter_to_closure_checked_multiple_paths files
                       (INTERFEROGRAM_FILES p1));
              EvDetectUnwrappingErrors])).
Proof.
  intros Hflag Hcheck Hdetect.
  unfold update_params_with_closure_checked_ifg_list. run.
  rewrite Hflag. simpl. rewrite Hcheck. simpl. rewrite Hdetect. simpl.
  by rewrite <- !app_assoc.
Qed.

(** X11: when the phase-closure step returns with the flag on, and the
    detection of unwrapping errors has left the interferogram list alone,
    then [params[INTERFEROGRAM_FILES]] is the list of the interferograms
    whose working path the closure check has retained, the value returned is
    [params], the list file was written with the converted paths of exactly
    these interferograms before the detection, and the rebuilt
    [params[PREREAD_IFGS]] has entries for retained interferograms only. *)
Theorem closure_step_keeps_only_retained {Env} (C : Collaborators Env)
    (s s' : State Env) (r : option Params)
    (files : list string) (breach : BreachCount) (occ : Occurrences)
    (p1 p2 : Params) (e1 e2 : Env) :
  PHASE_CLOSURE (params s) = true →
  filter_to_closure_checked_ifgs C (params s) (env s)
  = Ok ((Some files, breach, occ), p1, e1) →
  let kept :=
    _filter_to_closure_checked_multiple_paths files (INTERFEROGRAM_FILES p1) in
  detect_pix_with_unwrapping_errors C breach occ
    (with_INTERFEROGRAM_FILES kept p1) e1 = Ok (tt, p2, e2) →
  INTERFEROGRAM_FILES p2 = kept →
  update_params_with_closure_checked_ifg_list C s = (Ok r, s') →
  r = Some (params s')
  ∧ INTERFEROGRAM_FILES (params s') = kept
  ∧ (∃ d, PREREAD_IFGS (params s') = Some d
          ∧ ∀ k v, d !! k = Some v →
                   k ∈ files
                   ∧ ∃ m_p, m_p ∈ INTERFEROGRAM_FILES p1
                            ∧ tmp_sampled_path m_p = k)
  ∧ ∃ rest,
      trace s'
      = trace s
        ++ [EvClosureCheck;
            EvWriteLines
              (phase_closure_filtered_ifgs_list C (with_INTERFEROGRAM_FILES kept p1))
              ((λ m_p, converted_path m_p +:+ nl) <$> kept);
            EvDetectUnwrappingErrors]
        ++ rest.
Proof.
  intros Hflag Hcheck kept Hdetect Hsame Hrun.
  rewrite (closure_step_until_rebuild C s files breach occ p1 p2 e1 e2
             Hflag Hcheck Hdetect) in Hrun.
  apply bind_Ok_inv in Hrun as (d & s4 & Hcreate & Hret).
  revert Hret. run. intros [= <- <-].
  pose proof Hcreate as Hinv.
  apply _create_ifg_dict_Ok_inv in Hinv
    as (ifgs_dict & el & gt & md & wkt & e3 & made & _ & _ & _ & Hs4).
  simpl in Hs4. split; [done|]. split; [by rewrite Hs4|]. split.
  - exists d. split; [by rewrite Hs4|]. intros k v Hv.
    destruct (_create_ifg_dict_entries C _ _ d k v Hcreate Hv)
      as (m_p & ifg & Hin & -> & _ & _).
    simpl in Hin. rewrite Hsame in Hin. subst kept.
    unfold _filter_to_closure_checked_multiple_paths in Hin.
    apply list_elem_of_filter in Hin as [Hkept Hin].
    split; [done|]. by exists m_p.
  - rewrite Hs4. simpl. fold kept. eexists. by rewrite <- !app_assoc.
Qed.

Lemma closure_step_keeps_only_retained_witness :
  INTERFEROGRAM_FILES
    (params (update_params_with_closure_checked_ifg_list
               (stubs 1 (Some ["tmp/c.tif"; "tmp/a.tif"; "tmp/z.tif"]))
               (stub_state ["phase_closure"] true)).2)
  = [mp "a.tif"; mp "c.tif"].
Proof.
  refine (proj1 (proj2 (closure_step_keeps_only_retained
            (stubs 1 (Some ["tmp/c.tif"; "tmp/a.tif"; "tmp/z.tif"]))
            (stub_state ["phase_closure"] true) _ _
            ["tmp/c.tif"; "tmp/a.tif"; "tmp/z.tif"] [] []
            (stub_params ["phase_closure"] true)
            (with_INTERFEROGRAM_FILES [mp "a.tif"; mp "c.tif"]
               (stub_params ["phase_closure"] true))
            tt tt _ _ _ _ _))).
  - reflexivity.
  - reflexivity.
  - vm_compute. reflexivity.
  - vm_compute. reflexivity.
  - vm_compute. reflexivity.
Defined.

(** Shares of an empty list are empty, and they merge to the empty
    mapping. *)
Lemma array_split_nil {A} (size rank : nat) : array_split size (@nil A) rank = [].
Proof. unfold array_split. by rewrite drop_nil, take_nil. Qed.

Lemma join_dicts_from_empties (ds : list dict) :
  Forall (λ d, d = ∅) ds → join_dicts_from ∅ ds = Ok ∅.
Proof.
  induction 1 as [| d rest -> _ IH]; simpl; [done|].
  rewrite decide_True.
  - by rewrite (left_id_L ∅ (∪)).
  - intros k v Hv. by rewrite lookup_empty in Hv.
Qed.

Lemma merged_ifgs_dict_nil {Env} (C : Collaborators Env) (p : Params) (e : Env)
    (size : nat) :
  merged_ifgs_dict C p e (shares size []) = Ok ∅.
Proof.
  unfold merged_ifgs_dict, shares.
  assert (Hds : ∀ ranks : list nat,
            mapM (λ process_tifs, local_ifgs_dict C p e process_tifs ∅)
              (array_split size [] <$> ranks)
            = Ok (replicate (length ranks) (∅ : dict))).
  { intros ranks. apply mapM_result_Ok.
    induction ranks as [| r rest IH]; simpl; [constructor|].
    constructor; [by rewrite array_split_nil | done]. }
  rewrite Hds. simpl. apply join_dicts_from_empties.
  by apply Forall_replicate.
Qed.

(** X12: a closure check that returns an empty list of retained paths (and
    not [None]) is not caught by the zero-loops exit: the step empties
    [params[INTERFEROGRAM_FILES]], writes an empty list file, runs the
    detection, and then raises [IndexError] at [process_tifs[0]] while the
    metadata is rebuilt, with nothing dumped. *)
Theorem closure_step_nothing_retained {Env} (C : Collaborators Env)
    (s : State Env) (files : list string) (breach : BreachCount)
    (occ : Occurrences) (p1 p2 : Params) (e1 e2 : Env) :
  PHASE_CLOSURE (params s) = true →
  filter_to_closure_checked_ifgs C (params s) (env s)
  = Ok ((Some files, breach, occ), p1, e1) →
  _filter_to_closure_checked_multiple_paths files (INTERFEROGRAM_FILES p1) = [] →
  detect_pix_with_unwrapping_errors C breach occ
    (with_INTERFEROGRAM_FILES [] p1) e1 = Ok (tt, p2, e2) →
  INTERFEROGRAM_FILES p2 = [] →
  path_exists C (TMPDIR p2) e2 = true →
  update_params_with_closure_checked_ifg_list C s
  = (Raise IndexError,
     Build_State p2 e2
       (trace s
        ++ [EvClosureCheck;
            EvWriteLines
              (phase_closure_filtered_ifgs_list C (with_INTERFEROGRAM_FILES [] p1))
              [];
            EvDetectUnwrappingErrors;
            EvPrepIfgs []])).
Proof.
  intros Hflag Hcheck Hnone Hdetect Hempty Hdir.
  rewrite <- Hnone in Hdetect.
  rewrite (closure_step_until_rebuild C s files breach occ p1 p2 e1 e2
             Hflag Hcheck Hdetect).
  rewrite Hnone.
  unfold _create_ifg_dict, __save_ifgs_dict_with_headers_and_epochs. run.
  rewrite Hempty, merged_ifgs_dict_nil. simpl. rewrite Hdir. simpl.
  rewrite array_split_nil. simpl. by rewrite <- !app_assoc.
Qed.

Lemma closure_step_nothing_retained_witness :
  update_params_with_closure_checked_ifg_list (stubs 4 (Some ["tmp/z.tif"]))
    (stub_state ["phase_closure"] true)
  = (Raise IndexError,
     Build_State (with_INTERFEROGRAM_FILES [] (stub_params ["phase_closure"] true)) tt
       ([] ++ [EvClosureCheck; EvWriteLines "tmp/ifg_list" [];
               EvDetectUnwrappingErrors; EvPrepIfgs []])).
Proof.
  refine (closure_step_nothing_retained (stubs 4 (Some ["tmp/z.tif"]))
            (stub_state ["phase_closure"] true) ["tmp/z.tif"] [] []
            (stub_params ["phase_closure"] true)
            (with_INTERFEROGRAM_FILES [] (stub_params ["phase_closure"] true))
            tt tt _ _ _ _ _ _); reflexivity.
Defined.

Lemma _update_params_with_tiles_Ok_inv {Env} (C : Collaborators Env)
    (s s2 : State Env) (u : unit) :
  _update_params_with_tiles C s = (Ok u, s2) →
  ∃ d0 tl tiles,
    INTERFEROGRAM_FILES (params s) = d0 :: tl
    ∧ get_tiles C (sampled_path d0) (rows (params s)) (cols (params s)) (env s)
      = Ok tiles
    ∧ s2 = Build_State (with_TILES tiles (params s)) (env s)
             (trace s ++ [EvGetTiles (sampled_path d0)]).
Proof.
  unfold _update_params_with_tiles. run.
  destruct (INTERFEROGRAM_FILES (params s)) as [| d0 tl]; simpl; [done|].
  destruct (get_tiles C (sampled_path d0) (rows (params s)) (cols (params s))
              (env s)) as [tiles |] eqn:Htiles; simpl; [|done].
  intros [= _ <-]. by exists d0, tl, tiles.
Qed.

(** X13: a run of [correct_ifgs] that returns has gone through the
    initialisation in this order: the tiles are computed from the first
    interferogram; then the metadata mapping is collected and dumped; then
    the reference pixel is computed, by a collaborator that is handed
    [params] with the tiles and the mapping in it; and only then the step
    loop starts, with [REFX_FOUND] and [REFY_FOUND] set to the reference
    pixel.  No step is called before that. *)
Theorem initialisation_order {Env} (C : Collaborators Env) (s s' : State Env) :
  correct_ifgs C s = (Ok tt, s') →
  ∃ d0 tl tiles d before persisted e_ref xy p3 e3 rest,
    INTERFEROGRAM_FILES (params s) = d0 :: tl
    ∧ get_tiles C (sampled_path d0) (rows (params s)) (cols (params s)) (env s)
      = Ok tiles
    ∧ ref_pixel_calc_wrapper C
        (with_PREREAD_IFGS d (with_TILES tiles (params s))) e_ref
      = Ok (xy, p3, e3)
    ∧ run_steps C (correct (with_REF_FOUND xy p3))
        (Build_State (with_REF_FOUND xy p3) e3
           (trace s ++ [EvGetTiles (sampled_path d0)] ++ before
            ++ [EvDump (preread_ifgs C (with_TILES tiles (params s))) persisted;
                EvRefPixel]))
      = (Ok tt, s')
    ∧ (∀ ev, ev ∈ before →
             (∃ paths, ev = EvPrepIfgs paths) ∨ (∃ dir, ev = EvMkdir dir))
    ∧ trace s'
      = trace s ++ [EvGetTiles (sampled_path d0)] ++ before
        ++ [EvDump (preread_ifgs C (with_TILES tiles (params s))) persisted;
            EvRefPixel]
        ++ rest.
Proof.
  intros Hrun. unfold correct_ifgs in Hrun.
  apply bind_Ok_inv in Hrun as (u1 & s1 & Hval & Hrun).
  assert (s1 = s) as ->.
  { revert Hval. unfold __validate_correct_steps, query.
    destruct (validate_steps _); by intros [= <-]. }
  apply bind_Ok_inv in Hrun as (u2 & s2 & Htiles & Hrun).
  apply _update_params_with_tiles_Ok_inv in Htiles
    as (d0 & tl & tiles & Hifgs & Hget & ->).
  apply bind_Ok_inv in Hrun as (d & s3 & Hcreate & Hrun).
  apply _create_ifg_dict_Ok_inv in Hcreate
    as (ifgs_dict & el & gt & md & wkt & e1 & made & _ & _ & Hmade & ->).
  simpl in Hrun.
  apply bind_Ok_inv in Hrun as (u4 & s4 & Hemit & Hrun).
  revert Hemit. unfold emit. intros [= _ <-]. simpl in Hrun.
  apply bind_Ok_inv in Hrun as (xy & s5 & Href & Hrun).
  revert Href. unfold invoke. simpl.
  destruct (ref_pixel_calc_wrapper C _ e1) as [[[xy' p3] e3] |] eqn:Href;
    [|done].
  intros [= -> <-].
  apply bind_Ok_inv in Hrun as (u6 & s6 & Hmod & Hrun).
  revert Hmod. unfold modify_params. simpl. intros [= _ <-].
  apply bind_Ok_inv in Hrun as (p7 & s7 & Hget7 & Hrun).
  revert Hget7. unfold get_params. simpl. intros [= <- <-].
  match type of Hrun with
  | run_steps C _ (Build_State _ _ ?tr) = _ =>
      assert (Htr : tr
        = trace s ++ [EvGetTiles (sampled_path d0)]
          ++ ([EvPrepIfgs (sampled_path <$> INTERFEROGRAM_FILES (params s))]
              ++ made)
          ++ [EvDump (preread_ifgs C (with_TILES tiles (params s)))
                (with_headers_and_epochs ifgs_dict el gt md wkt);
              EvRefPixel])
        by (simpl; rewrite <- ?app_assoc; simpl; rewrite <- ?app_assoc; done);
      rewrite Htr in Hrun; clear Htr
  end.
  match type of Hrun with
  | run_steps C ?steps ?s0 = _ =>
      destruct (run_steps_trace C steps s0) as (rest & Hrest & _)
  end.
  rewrite Hrun in Hrest. simpl in Hrest.
  exists d0, tl, tiles, d,
    ([EvPrepIfgs (sampled_path <$> INTERFEROGRAM_FILES (params s))] ++ made),
    (with_headers_and_epochs ifgs_dict el gt md wkt), e1, xy, p3, e3, rest.
  split; [done|]. split; [done|]. split; [done|]. split; [done|]. split.
  - intros ev Hev. apply elem_of_app in Hev as [Hev | Hev].
    + apply list_elem_of_singleton in Hev as ->. left. by eexists.
    + destruct Hmade as [-> | ->]; [inversion Hev|].
      apply list_elem_of_singleton in Hev as ->. right. by eexists.
  - rewrite Hrest. do 3 (rewrite <- ?app_assoc; simpl). done.
Qed.

Lemma initialisation_order_witness :
  ∃ d0 tl tiles d before persisted e_ref xy p3 e3 rest,
    [mp "a.tif"; mp "b.tif"; mp "c.tif"] = d0 :: tl
    ∧ get_tiles (stubs 2 None) (sampled_path d0) 1 1 tt = Ok tiles
    ∧ ref_pixel_calc_wrapper (stubs 2 None)
        (with_PREREAD_IFGS d (with_TILES tiles (stub_params ["mst"] false))) e_ref
      = Ok (xy, p3, e3)
    ∧ run_steps (stubs 2 None) (correct (with_REF_FOUND xy p3))
        (Build_State (with_REF_FOUND xy p3) e3
           ([] ++ [EvGetTiles (sampled_path d0)] ++ before
            ++ [EvDump (preread_ifgs (stubs 2 None)
                          (with_TILES tiles (stub_params ["mst"] false))) persisted;
                EvRefPixel]))
      = (Ok tt, (correct_ifgs (stubs 2 None) (stub_state ["mst"] false)).2)
    ∧ (∀ ev, ev ∈ before →
             (∃ paths, ev = EvPrepIfgs paths) ∨ (∃ dir, ev = EvMkdir dir))
    ∧ trace (correct_ifgs (stubs 2 None) (stub_state ["mst"] false)).2
      = [] ++ [EvGetTiles (sampled_path d0)] ++ before
        ++ [EvDump (preread_ifgs (stubs 2 None)
                      (with_TILES tiles (stub_params ["mst"] false))) persisted;
            EvRefPixel]
        ++ rest.
Proof.
  refine (initialisation_order (stubs 2 None) (stub_state ["mst"] false) _ _).
  vm_compute. reflexivity.
Defined.

(** X14: the filter leaves the interferogram list as it is exactly when the
    closure check has retained the working path of every interferogram of
    the list; paths retained that belong to no interferogram of the list
    make no difference. *)
Theorem closure_filter_unchanged_iff (ifg_files : list string)
    (multi_paths : list MultiplePaths) :
  _filter_to_closure_checked_multiple_paths ifg_files multi_paths = multi_paths
  ↔ ∀ m_p, m_p ∈ multi_paths → tmp_sampled_path m_p ∈ ifg_files.
Proof.
  unfold _filter_to_closure_checked_multiple_paths. split.
  - intros Hsame m_p Hin. rewrite <- Hsame in Hin.
    by apply list_elem_of_filter in Hin as [? _].
  - intros Hall. induction multi_paths as [| m rest IH]; [done|].
    rewrite filter_cons_True by (apply Hall; left).
    f_equal. apply IH. intros m_p Hin. apply Hall. by right.
Qed.



End CorrectFacts.
